(** * printer-remark: the markdown AST-to-Doc transformer

    A shallow embedding of [src/printer-remark.js] and of the pieces of
    its environment that it reads.

    Conventions of the embedding.
    - A JavaScript string is a [string]; its characters are 8-bit code
      units (the Latin-1 range).
    - An AST node is a tagged record ([Node]): a [type] string, the
      attributes the printer reads, and the ordered [children].  What
      [path.getValue()] hands to [genericPrint] is a [PathValue]: a
      node, a bare string, or nothing.
    - In-place mutation of the AST is explicit state passing: a printing
      function returns the node as it is left after the call, also when
      the call throws.
    - A [throw] is a [Throw] result; the calls made to the [fill]
      builder are recorded in a trace, in call order.
    - The [print] callback that [genericPrint] receives is a parameter,
      as in the source; [printGenerically] ties the recursion. *)

From Stdlib Require Import String Ascii List Arith Lia Bool PeanoNat NArith.
Import ListNotations.
Open Scope string_scope.
Open Scope list_scope.

Infix "+++" := String.append (at level 60, right associativity).

(* ------------------------------------------------------------------ *)
(** ** Strings *)

Module Str.

(** [String.prototype.repeat] for a one-character string. *)
Fixpoint repeat (c : ascii) (k : nat) : string :=
  match k with
  | 0 => EmptyString
  | S k' => String c (repeat c k')
  end.

(** [s.repeat(k)] for an arbitrary string. *)
Fixpoint repeat_str (s : string) (k : nat) : string :=
  match k with
  | 0 => EmptyString
  | S k' => s +++ repeat_str s k'
  end.

(** JavaScript truthiness of a string: non-empty. *)
Definition truthy (s : string) : bool :=
  match s with EmptyString => false | String _ _ => true end.

(** The regular-expression class [\s] on 8-bit code units: tab, line
    feed, vertical tab, form feed, carriage return, space and the
    no-break space. *)
Definition is_space (c : ascii) : bool :=
  let n := nat_of_ascii c in
  (((9 <=? n) && (n <=? 13)) || (n =? 32) || (n =? 160))%nat.

(** [s.replace(/^\s+/, "")]. *)
Fixpoint trimStart (s : string) : string :=
  match s with
  | EmptyString => EmptyString
  | String c s' => if is_space c then trimStart s' else s
  end.

(** [s.split(/\s+/g)]: cut at every maximal run of white space.  The
    flag [skipping] says that the previous character was white space
    already, so the current run has been cut. *)
Fixpoint split_ws (skipping : bool) (s : string) : list string :=
  match s with
  | EmptyString => [EmptyString]
  | String c s' =>
      if is_space c then
        if skipping then split_ws true s'
        else EmptyString :: split_ws true s'
      else
        match split_ws false s' with
        | w :: ws => String c w :: ws
        | [] => [String c EmptyString]
        end
  end.

Definition split (s : string) : list string := split_ws false s.

(** The one-character strings of a string, as indexing it gives. *)
Fixpoint chars (s : string) : list string :=
  match s with
  | EmptyString => []
  | String c s' => String c EmptyString :: chars s'
  end.

End Str.

(* ------------------------------------------------------------------ *)
(** ** The npm package longest-streak *)

(** [streak(value, character)]: the length of the longest run of
    [character] in [value].  [run] is the length of the run that ends
    just before the rest [s]; [best] the longest run completed or under
    way so far. *)
Fixpoint streak_from (c : ascii) (run best : nat) (s : string) : nat :=
  match s with
  | EmptyString => best
  | String x s' =>
      if Ascii.eqb x c
      then streak_from c (S run) (Nat.max best (S run)) s'
      else streak_from c 0 best s'
  end.

Definition streak (value : string) (character : ascii) : nat :=
  streak_from character 0 0 value.

(* ------------------------------------------------------------------ *)
(** ** The Doc intermediate representation *)

Inductive LineKind := Soft | Normal | Hard | Literal.

(** The sequence argument of [concat] and [fill].  The printer passes
    arrays, and in a few places a JavaScript string, which is read
    through [length] and indexing like an array of its characters. *)
Inductive Parts (D : Type) : Type :=
| PStr (s : string)
| PArr (l : list D).
Arguments PStr {D} s.
Arguments PArr {D} l.

#[warnings="-register-all"]
Inductive Doc : Type :=
| Text (s : string)
| Concat (parts : Parts Doc)
| Line (kind : LineKind)
| Group (contents : Doc) (shouldBreak : bool)
| Fill (parts : Parts Doc)
| Indent (contents : Doc)
| MarkerBlock (marker : string) (contents : Doc)
| IfBreak (whenBroken whenFlat : Doc).

(** [parts.length]. *)
Definition parts_length (p : Parts Doc) : nat :=
  match p with
  | PStr s => String.length s
  | PArr l => List.length l
  end.

(** The elements [parts[0]], [parts[1]], ... *)
Definition parts_items (p : Parts Doc) : list Doc :=
  match p with
  | PStr s => map Text (Str.chars s)
  | PArr l => l
  end.

(* ------------------------------------------------------------------ *)
(** ** Results, errors and the trace of fill calls *)

Inductive Error :=
| UnknownRemarkType (type : string)   (* "unknown remark type: " + n.type *)
| CannotIndentCode                    (* "Cannot indent code properly. ..." *)
| EvenLengthFill                      (* fill's contract violation *)
| OutOfFuel.                          (* the recursion bound of printGenerically *)

Inductive result (A : Type) : Type :=
| Ok (a : A)
| Throw (e : Error).
Arguments Ok {A} a.
Arguments Throw {A} e.

(** The sequences handed to [fill], in call order. *)
Definition Calls := list (Parts Doc).

Definition M (A : Type) : Type := (Calls * result A)%type.

Definition ret {A} (a : A) : M A := ([], Ok a).
Definition throw {A} (e : Error) : M A := ([], Throw e).

Definition bind {A B} (m : M A) (f : A -> M B) : M B :=
  match m with
  | (c, Ok a) => let (c', r) := f a in (c ++ c', r)
  | (c, Throw e) => (c, Throw e)
  end.

Notation "x <- m ;; k" := (bind m (fun x => k))
  (at level 61, m at next level, right associativity).


(* ------------------------------------------------------------------ *)
(** ** doc-builders *)

Module DocBuilders.

(** Modelled from the spec: doc-builders.js is not among the sources.
    The spec gives the builders [text], [concat], [group], [indent],
    [markerBlock], [fill], [ifBreak] and the four Line constants as
    pure constructors of the Doc variants.  A Group's [shouldBreak] is
    computed later, by the propagation pass, so [group] leaves it
    unset.  [concat] has one parameter, the sequence, and keeps it as
    the parts of the Concat; that the Concat of an empty sequence is a
    no-op is a fact of the layout, where it prints as the empty text. *)
Definition concat (parts : Parts Doc) : Doc := Concat parts.
Definition group (contents : Doc) : Doc := Group contents false.
Definition indent (contents : Doc) : Doc := Indent contents.
Definition markerBlock (marker : string) (contents : Doc) : Doc :=
  MarkerBlock marker contents.
Definition ifBreak (whenBroken whenFlat : Doc) : Doc :=
  IfBreak whenBroken whenFlat.
Definition line : Doc := Line Normal.
Definition softline : Doc := Line Soft.
Definition hardline : Doc := Line Hard.

(** Modelled from the spec: doc-builders.js is not among the sources.
    "[fill] fails (construction-time contract violation) if given an
    even-length sequence."  Every call is recorded. *)
Definition fill (parts : Parts Doc) : M Doc :=
  ([parts],
   if Nat.even (parts_length parts) then Throw EvenLengthFill
   else Ok (Fill parts)).

End DocBuilders.
Import DocBuilders.

Definition hardlinex2 : Doc := concat (PArr [hardline; hardline]).
Definition hardlinex3 : Doc := concat (PArr [hardline; hardline; hardline]).

(* ------------------------------------------------------------------ *)
(** ** The AST *)

(** The attributes the printer reads.  [n_lang], [n_title] and [n_alt]
    may be absent ([null] or [undefined]); [n_ordered] is the flag of a
    [list] node, absent elsewhere. *)
Record Attrs : Type := mkAttrs {
  n_value : string;
  n_lang : option string;
  n_identifier : string;
  n_url : string;
  n_title : option string;
  n_alt : option string;
  n_referenceType : string;
  n_ordered : option bool
}.

#[warnings="-register-all"]
Inductive node : Type :=
| Node (type : string) (attrs : Attrs) (children : list node).

Definition type (n : node) : string := let 'Node t _ _ := n in t.
Definition attrs (n : node) : Attrs := let 'Node _ a _ := n in a.
Definition children (n : node) : list node := let 'Node _ _ cs := n in cs.

(** The assignment [n.value = v]: on the attributes, and on the node. *)
Definition with_value (a : Attrs) (v : string) : Attrs :=
  mkAttrs v (n_lang a) (n_identifier a) (n_url a) (n_title a)
          (n_alt a) (n_referenceType a) (n_ordered a).

Definition set_value (n : node) (v : string) : node :=
  let 'Node t a cs := n in Node t (with_value a v) cs.

(** What [path.getValue()] returns. *)
Inductive PathValue : Type :=
| PNull
| PString (s : string)
| PNode (n : node).

(** [x || ""] for a string that may be absent. *)
Definition or_empty (o : option string) : string :=
  match o with Some s => s | None => EmptyString end.

(** [prev.ordered === child.ordered]. *)
Definition ordered_eq (a b : option bool) : bool :=
  match a, b with
  | Some x, Some y => Bool.eqb x y
  | None, None => true
  | _, _ => false
  end.

(* ------------------------------------------------------------------ *)
(** ** remarkOptions *)

(** The fields of the module-level [remarkOptions] object that the
    printer reads.  [listItemIndent] and [pedantic] are read but not set
    by the object literal: they are [undefined] there, which is [None]
    and [false] here. *)
Record RemarkOptions : Type := mkRemarkOptions {
  commonmark : bool;
  emphasis : string;
  strong : string;
  fence : ascii;
  fences : bool;
  setext : bool;
  closeAtx : bool;
  listItemIndent : option string;
  pedantic : bool
}.

Definition remarkOptions : RemarkOptions :=
  {| commonmark := false;
     emphasis := "*";
     strong := "*";
     fence := "`"%char;
     fences := true;
     setext := false;
     closeAtx := false;
     listItemIndent := None;
     pedantic := false |}.

(* ------------------------------------------------------------------ *)
(** ** Helpers that do not depend on the environment *)

(** [intersperse(sep, itemsIn)]; [items] is the array being built. *)
Fixpoint intersperse_loop {A} (sep : A) (items itemsIn : list A) : list A :=
  match itemsIn with
  | [] => items
  | item :: rest =>
      let items1 :=
        if (List.length items =? 0)%nat then items else items ++ [sep] in
      intersperse_loop sep (items1 ++ [item]) rest
  end.

Definition intersperse {A} (sep : A) (itemsIn : list A) : list A :=
  intersperse_loop sep [] itemsIn.

(** [flattenOnce(docs)]; [res] is the array being built. *)
Fixpoint flattenOnce_loop (res docs : list Doc) : list Doc :=
  match docs with
  | [] => res
  | childDoc :: rest =>
      match childDoc with
      | Concat parts => flattenOnce_loop (res ++ parts_items parts) rest
      | _ => flattenOnce_loop (res ++ [childDoc]) rest
      end
  end.

Definition flattenOnce (docs : list Doc) : list Doc :=
  flattenOnce_loop [] docs.

(** [FENCE.test(value)] for [FENCE = /([`~])\1{2}/]: some backtick or
    tilde is followed by two more copies of itself. *)
Definition is_fence_char (c : ascii) : bool :=
  Ascii.eqb c "`"%char || Ascii.eqb c "~"%char.

Fixpoint FENCE_test (value : string) : bool :=
  match value with
  | String a ((String b (String c _)) as rest) =>
      (is_fence_char a && Ascii.eqb b a && Ascii.eqb c a) || FENCE_test rest
  | _ => false
  end.

(** The case labels of the [switch] of [genericPrint]. *)
Inductive NodeKind :=
| KRoot | KBlockquote | KBreak | KCode | KDefinition | KDelete
| KFootnoteDefinition | KFootnoteReference | KFootnote | KHeading | KHtml
| KImageReference | KText | KParagraph | KEmphasis | KStrong
| KDefault.

Definition kind_of (t : string) : NodeKind :=
  if t =? "root" then KRoot
  else if t =? "blockquote" then KBlockquote
  else if t =? "break" then KBreak
  else if t =? "code" then KCode
  else if t =? "definition" then KDefinition
  else if t =? "delete" then KDelete
  else if t =? "footnoteDefinition" then KFootnoteDefinition
  else if t =? "footnoteReference" then KFootnoteReference
  else if t =? "footnote" then KFootnote
  else if t =? "heading" then KHeading
  else if t =? "html" then KHtml
  else if t =? "imageReference" then KImageReference
  else if t =? "text" then KText
  else if t =? "paragraph" then KParagraph
  else if t =? "emphasis" then KEmphasis
  else if t =? "strong" then KStrong
  else KDefault.

(** The print callback: it is given the parent and the child of a path,
    and returns the child as it leaves it, with the calls it made to
    [fill] and its Doc or its error. *)
Definition Printer : Type := option node -> node -> node * M Doc.

(** [path.map(print, "children")] on the node [parent], whose children
    are [cs]: the children as they are left, and the Docs. *)
Fixpoint path_map (print : Printer) (parent : node) (cs : list node)
  : list node * M (list Doc) :=
  match cs with
  | [] => ([], ret [])
  | c :: rest =>
      let (c', m) := print (Some parent) c in
      match m with
      | (l, Ok d) =>
          let '(rest', (l', r)) := path_map print parent rest in
          (c' :: rest',
           (l ++ l', match r with Ok ds => Ok (d :: ds) | Throw e => Throw e end))
      | (l, Throw e) => (c' :: rest, (l, Throw e))
      end
  end.

(** The separator that [printBlock] pushes between [prev] and [child]. *)
Definition block_separator (prev child : node) : Doc :=
  if (type child =? type prev) && (type prev =? "list") then
    if ordered_eq (n_ordered (attrs prev)) (n_ordered (attrs child))
    then hardlinex3 else hardlinex2
  else if (type prev =? "list") && (type child =? "code")
          && negb (Str.truthy (or_empty (n_lang (attrs child))))
  then hardlinex3
  else hardlinex2.

(** The [path.each] loop of [printBlock]; [docs] is the array
    [children] being built and [prev] the variable of that name. *)
Fixpoint printBlock_each (print : Printer) (parent : node)
    (docs : list Doc) (prev : option node) (cs : list node)
  : list node * M (list Doc) :=
  match cs with
  | [] => ([], ret docs)
  | child :: rest =>
      let docs1 :=
        match prev with
        | Some p => docs ++ [block_separator p child]
        | None => docs
        end in
      let (child', m) := print (Some parent) child in
      match m with
      | (l, Ok d) =>
          let '(rest', (l', r)) :=
            printBlock_each print parent (docs1 ++ [d]) (Some child') rest in
          (child' :: rest', (l ++ l', r))
      | (l, Throw e) => (child' :: rest, (l, Throw e))
      end
  end.

Definition printBlock (print : Printer) (n : node) : node * M Doc :=
  let '(cs', m) := printBlock_each print n [] None (children n) in
  (Node (type n) (attrs n) cs', docs <- m ;; ret (concat (PArr docs))).

Definition printBlockWithLeftMarkers (print : Printer) (n : node)
    (marker : string) : node * M Doc :=
  let '(n', m) := printBlock print n in
  (n', d <- m ;; ret (markerBlock marker d)).

Definition printQuoted (print : Printer) (n : node)
    (leftQuote rightQuote : string) : node * M Doc :=
  let '(cs', m) := path_map print n (children n) in
  (Node (type n) (attrs n) cs',
   ds <- m ;; ret (concat (PArr (Text leftQuote :: ds ++ [Text rightQuote])))).

(** The mutation at the head of the [paragraph] case: when the first
    child is a [text] node, its [value] loses its leading white space
    ([n.children[0].value = n.children[0].value.replace(/^\s+/, ...)]). *)
Definition trimFirstText (cs : list node) : list node :=
  match cs with
  | c0 :: rest =>
      if type c0 =? "text"
      then set_value c0 (Str.trimStart (n_value (attrs c0))) :: rest
      else cs
  | [] => cs
  end.

(* ------------------------------------------------------------------ *)
(** ** The transformer *)

Section Transformer.

(** The capabilities taken from remark-stringify and from the language:
    [encode] and [escape] of the compiler instance, the two enclosing
    utilities [uri] and [title], [String.prototype.toLowerCase], and the
    compiler's visitor of a node ([remarkCompiler.visitors[n.type]]
    called on [n]), all of them pure functions to strings. *)
Variable encode : string -> string.
Variable escape : string -> string.
Variable uri : string -> string.
Variable title : string -> string.
Variable toLowerCase : string -> string.
Variable visit : node -> string.

(** The [remarkOptions] object, read at each use.  The source fixes it
    to the constant [remarkOptions] above; it is a variable here so that
    the other settings can be spoken of. *)
Variable opts : RemarkOptions.

Definition textToWords (text : string) (shouldEncode shouldEscape : bool)
  : Parts Doc :=
  if negb (Str.truthy text) then PStr ""
  else
    let words :=
      map (fun word =>
             let word1 := if shouldEscape then escape word else word in
             let word2 := if shouldEncode then encode word1 else word1 in
             Text word2)
          (Str.split text) in
    PArr (intersperse line words).

Definition printWrappingText (text : string)
    (shouldEncode shouldEscape : bool) : M Doc :=
  fill (textToWords text shouldEncode shouldEscape).

Definition printLabel (n : node) : M Doc :=
  let rtype := n_referenceType (attrs n) in
  value <- (if rtype =? "full"
            then printWrappingText (n_identifier (attrs n)) false false
            else ret (Text "")) ;;
  ret (if rtype =? "shortcut" then value
       else concat (PArr [Text "["; value; Text "]"])).

(** [!lang && !remarkOptions.fences && value]: the test of the [code]
    case for indented code. *)
Definition indentedCode (lang value : string) : bool :=
  negb (Str.truthy lang) && negb (fences opts) && Str.truthy value.

(** The [code] case. *)
Definition printCode (parent : option node) (n : node) : M Doc :=
  let value := n_value (attrs n) in
  let marker := fence opts in
  let lang := encode (or_empty (n_lang (attrs n))) in
  if indentedCode lang value then
    if match parent with
       | Some p =>
           (type p =? "listItem")
           && negb (match listItemIndent opts with
                    | Some i => i =? "tab"
                    | None => false
                    end)
           && pedantic opts
       | None => false
       end
    then throw CannotIndentCode
    else ret (indent (Text value))
  else
    let fence_len := streak value marker + 1 in
    let value1 := if FENCE_test value then indent (Text value) else Text value in
    let fence_str := Str.repeat marker (Nat.max fence_len 3) in
    ret (concat (PArr [Text fence_str; Text lang; hardline; value1; hardline;
                       Text fence_str])).

(** The [definition] case. *)
Definition printDefinition (n : node) : M Doc :=
  let id := toLowerCase (n_identifier (attrs n)) in
  let idAndUrlParts :=
    parts_items (textToWords ("[" +++ id +++ "]:") false false)
    ++ [line; Text (uri (n_url (attrs n)))] in
  f1 <- fill (PArr idAndUrlParts) ;;
  rest <- (if Str.truthy (or_empty (n_title (attrs n)))
           then f2 <- fill (textToWords (title (or_empty (n_title (attrs n))))
                                        false false) ;;
                ret [line; f2]
           else ret []) ;;
  ret (group (indent (concat (PArr (f1 :: rest))))).

(** The [switch] of [genericPrint], on a node. *)
Definition genericPrint_node (print : Printer) (parent : option node)
    (n : node) : node * M Doc :=
  match kind_of (type n) with
  | KRoot =>
      let '(n', m) := printBlock print n in
      (n', d <- m ;; ret (concat (PArr [d; hardline])))
  | KBlockquote => printBlockWithLeftMarkers print n "> "
  | KBreak =>
      (* concat("\\", hardline): the sequence argument is the string, and
         hardline is a second argument, which concat does not take *)
      (n, ret (if commonmark opts then concat (PStr "\") else hardline))
  | KCode => (n, printCode parent n)
  | KDefinition => (n, printDefinition n)
  | KDelete => printQuoted print n "~~" "~~"
  | KFootnoteDefinition =>
      let id := toLowerCase (n_identifier (attrs n)) in
      let idTagParts := textToWords ("[^" +++ id +++ "]:") false false in
      let '(n', m) := printBlock print n in
      (n',
       content <- m ;;
       f1 <- fill idTagParts ;;
       f2 <- fill (PArr [line; content]) ;;
       ret (group (concat (PArr [f1; ifBreak softline (Text ""); indent f2]))))
  | KFootnoteReference => (n, ret (Text (visit n)))
  | KFootnote =>
      let '(cs', m) := path_map print n (children n) in
      (Node (type n) (attrs n) cs',
       childDocs <- m ;;
       f <- fill (PArr (flattenOnce (flattenOnce childDocs))) ;;
       ret (concat (PArr [Text "[^"; f; Text "]"])))
  | KHeading => (n, ret (Text (visit n)))
  | KHtml => (n, ret (Text (visit n)))
  | KImageReference =>
      (n,
       alt <- printWrappingText (or_empty (n_alt (attrs n))) true false ;;
       label <- printLabel n ;;
       ret (concat (PArr [Text "!["; alt; Text "]"; label])))
  | KText => (n, ret (concat (textToWords (n_value (attrs n)) true true)))
  | KParagraph =>
      let cs1 := trimFirstText (children n) in
      let n1 := Node (type n) (attrs n) cs1 in
      let '(cs', m) := path_map print n1 cs1 in
      (Node (type n) (attrs n) cs',
       docs <- m ;;
       fill (PArr (flattenOnce (flattenOnce (intersperse softline docs)))))
  | KEmphasis => printQuoted print n (emphasis opts) (emphasis opts)
  | KStrong =>
      let marker := Str.repeat_str (strong opts) 2 in
      printQuoted print n marker marker
  | KDefault => (n, throw (UnknownRemarkType (type n)))
  end.

Definition genericPrint (print : Printer) (parent : option node)
    (v : PathValue) : PathValue * M Doc :=
  match v with
  | PNull => (v, ret (Text ""))
  | PString s => (v, ret (Text s))
  | PNode n =>
      let '(n', m) := genericPrint_node print parent n in (PNode n', m)
  end.

(** The [print] callback is the printer itself: each child is printed by
    [genericPrint] with the same callback.  [fuel] bounds the depth of
    the recursion. *)
Fixpoint printGenerically (fuel : nat) (parent : option node) (n : node)
  : node * M Doc :=
  match fuel with
  | 0 => (n, throw OutOfFuel)
  | S fuel' => genericPrint_node (printGenerically fuel') parent n
  end.

End Transformer.

(* ------------------------------------------------------------------ *)
(** ** [canWrap] *)

(** [canWrap(text)]: [/\s+/g.test(text || ...)], the regular expression
    being a fresh one at each call: some character of the text is white
    space. *)
Fixpoint canWrap (text : string) : bool :=
  match text with
  | EmptyString => false
  | String c rest => Str.is_space c || canWrap rest
  end.

(* ------------------------------------------------------------------ *)
(** ** The command line: option readers, [format] and [handleError] *)

Module Cli.

(** The result of a call that may throw a value of type [E]. *)
Inductive outcome (E A : Type) : Type :=
| Returns (a : A)
| Throws (e : E).
Arguments Returns {E A} a.
Arguments Throws {E A} e.

(** [s1.startsWith(s2)], with the pattern first. *)
Fixpoint starts_with (pat s : string) : bool :=
  match pat, s with
  | EmptyString, _ => true
  | String a pat', String b s' => Ascii.eqb a b && starts_with pat' s'
  | String _ _, EmptyString => false
  end.

(** [/pat/.test(s)] for a pattern of plain characters: [pat] occurs in
    [s]. *)
Fixpoint occurs (pat s : string) : bool :=
  starts_with pat s
  || match s with
     | EmptyString => false
     | String _ s' => occurs pat s'
     end.

(** [getTrailingComma(argv)] on [argv["trailing-comma"]], absent or a
    string: the lines given to [console.warn], and the value returned or
    the message of the Error thrown. *)
Definition getTrailingComma (value : option string)
  : list string * outcome string string :=
  match value with
  | None => ([], Returns "none")
  | Some v =>
      if v =? "none" then ([], Returns "none")
      else if v =? EmptyString then
        (["Warning: `--trailing-comma` was used without an argument. This is deprecated. "
          +++ "Specify " +++ String (ascii_of_nat 34) "none"
          +++ String (ascii_of_nat 34) ", "
          +++ String (ascii_of_nat 34) "es5" +++ String (ascii_of_nat 34) ", or "
          +++ String (ascii_of_nat 34) "all" +++ String (ascii_of_nat 34) "."],
         Returns "es5")
      else if v =? "es5" then ([], Returns "es5")
      else if v =? "all" then ([], Returns "all")
      else ([], Throws "Invalid option for --trailing-comma")
  end.

(** [getParserOption(argv)] on [argv.parser], absent or a string, and
    the truth of [argv["flow-parser"]]: the lines given to
    [console.warn] and the value returned, [None] for [undefined]. *)
Definition getParserOption (parser : option string) (flowParser : bool)
  : list string * option string :=
  match parser with
  | None => ([], None)
  | Some value =>
      if flowParser
      then (["`--flow-parser` is deprecated. Use `--parser flow` instead."],
            Some "flow")
      else ([], Some value)
  end.

(** The flags of [argv] and the field of [opt] that [format] reads. *)
Record Flags : Type := mkFlags {
  debugPrintDoc : bool;
  debugCheck : bool
}.

(** What [format] returns: an object with the field [formatted] and,
    from [formatWithCursor], possibly [cursorOffset]. *)
Record Formatted : Type := mkFormatted {
  formatted : string;
  cursorOffset : option nat
}.

(** What [format] throws: a string of its own, or whatever one of the
    functions it calls throws. *)
Inductive Thrown (X : Type) : Type :=
| ThrownString (s : string)
| ThrownBy (x : X).
Arguments ThrownString {X} s.
Arguments ThrownBy {X} x.

Definition MAX_AST_SIZE : N := 2097152%N.

Section Format.

(** The functions of the [prettier] module and the helpers that
    [format] calls, for the input and options at hand: [X] is what they
    may throw, [Ast] and [D] what [parse] and [printToDoc] return. *)
Variables X Ast D : Type.
Variable prettier_format : string -> outcome X string.
Variable prettier_formatWithCursor : string -> outcome X Formatted.
Variable debug_parse : string -> outcome X Ast.
Variable debug_printToDoc : string -> outcome X D.
Variable debug_formatDoc : D -> outcome X string.
Variable cleanAST : Ast -> string.
Variable diff : string -> string -> string.

(** [format(input, opt)], [filepath] being [opt.filepath]. *)
Definition format (argv : Flags) (input : string) (filepath : option string)
  : outcome (Thrown X) Formatted :=
  if debugPrintDoc argv then
    match debug_printToDoc input with
    | Throws x => Throws (ThrownBy x)
    | Returns doc =>
        match debug_formatDoc doc with
        | Throws x => Throws (ThrownBy x)
        | Returns text => Returns (mkFormatted text None)
        end
    end
  else if debugCheck argv then
    match prettier_format input with
    | Throws x => Throws (ThrownBy x)
    | Returns pp =>
        match prettier_format pp with
        | Throws x => Throws (ThrownBy x)
        | Returns pppp =>
            if negb (pp =? pppp) then
              Throws (ThrownString
                        ("prettier(input) !== prettier(prettier(input))"
                         +++ String (ascii_of_nat 10) (diff pp pppp)))
            else
              match debug_parse input with
              | Throws x => Throws (ThrownBy x)
              | Returns a1 =>
                  match debug_parse pp with
                  | Throws x => Throws (ThrownBy x)
                  | Returns a2 =>
                      let ast := cleanAST a1 in
                      let past := cleanAST a2 in
                      if negb (ast =? past) then
                        let astDiff :=
                          if (MAX_AST_SIZE <? N.of_nat (String.length ast))%N
                             || (MAX_AST_SIZE <? N.of_nat (String.length past))%N
                          then "AST diff too large to render"
                          else diff ast past in
                        Throws (ThrownString
                                  ("ast(input) !== ast(prettier(input))"
                                   +++ String (ascii_of_nat 10) astDiff
                                   +++ String (ascii_of_nat 10) (diff input pp)))
                      else
                        Returns
                          (mkFormatted
                             (if Str.truthy (or_empty filepath)
                              then or_empty filepath
                              else "(stdin)" +++ String (ascii_of_nat 10) EmptyString)
                             None)
                  end
              end
        end
    end
  else
    match prettier_formatWithCursor input with
    | Throws x => Throws (ThrownBy x)
    | Returns r => Returns r
    end.

End Format.

(** A value caught by the callers of [format]: [null] or [undefined],
    a string, as [format] throws in its debug check, or an object with
    the truth of its [loc] and its [message] and [stack], absent or
    strings.  An array is an object without the three; a number or a
    boolean has none of them either and goes the way of a string. *)
Inductive Caught : Type :=
| CaughtNull
| CaughtUndefined
| CaughtString (s : string)
| CaughtObject (loc : bool) (message stack : option string).

(** An argument of [console.error]. *)
Inductive Shown : Type :=
| ShownString (s : string)
| ShownValue (e : Caught).

(** What [handleError] itself may throw: the TypeError of reading a
    property of [null] or [undefined]. *)
Inductive Raised : Type :=
| TypeError (property : string).

(** The process as [handleError] changes it: the calls to
    [console.error], [process.exitCode], and the status of
    [process.exit] once it has been called. *)
Record Process : Type := mkProcess {
  stderr : list (list Shown);
  exitCode : option nat;
  exited : option nat
}.

(** [e && e.loc], as a truth value. *)
Definition has_loc (e : Caught) : bool :=
  match e with
  | CaughtNull | CaughtUndefined => false
  | CaughtString _ => false
  | CaughtObject loc _ _ => loc
  end.

(** The string that [/Validation Error/.test(e && e.message)] is run
    on: [test] makes a string of its argument. *)
Definition tested_message (e : Caught) : string :=
  match e with
  | CaughtNull => "null"
  | CaughtUndefined => "undefined"
  | CaughtString s => if Str.truthy s then "undefined" else EmptyString
  | CaughtObject _ (Some m) _ => m
  | CaughtObject _ None _ => "undefined"
  end.

(** [e.stack || e]: reading [stack] of [null] or [undefined] throws. *)
Definition stack_or_self (e : Caught) : outcome Raised Shown :=
  match e with
  | CaughtNull | CaughtUndefined => Throws (TypeError "stack")
  | CaughtObject _ _ (Some st) =>
      Returns (if Str.truthy st then ShownString st else ShownValue e)
  | _ => Returns (ShownValue e)
  end.

Section HandleError.

(** [String(e)]. *)
Variable String_ : Caught -> string.

(** [handleError(filename, e)] on the process [p]: the process as the
    call leaves it, and whether the call returns or throws.  In the last
    branch the arguments of [console.error] are evaluated before the
    call, so that when [e.stack] throws nothing has been written and the
    exit code has not been set. *)
Definition handleError (filename : string) (e : Caught) (p : Process)
  : Process * outcome Raised unit :=
  let isParseError := has_loc e in
  let isValidationError := occurs "Validation Error" (tested_message e) in
  if isParseError then
    (mkProcess (stderr p ++ [[ShownString (filename +++ ": " +++ String_ e)]])
               (Some 2) (exited p),
     Returns tt)
  else if isValidationError then
    (mkProcess (stderr p ++ [[ShownString (String_ e)]]) (exitCode p) (Some 1),
     Returns tt)
  else
    match stack_or_self e with
    | Throws err => (p, Throws err)
    | Returns shown =>
        (mkProcess (stderr p ++ [[ShownString (filename +++ ":"); shown]])
                   (Some 2) (exited p),
         Returns tt)
    end.

End HandleError.

End Cli.

(* ================================================================== *)
(** * The notions of the statements *)

(** [s] holds a run of [k] copies of [c]. *)
Definition has_run (c : ascii) (k : nat) (s : string) : Prop :=
  exists pre post, s = pre +++ Str.repeat c k +++ post.

(** A backtick or a tilde occurs three times in a row in [value]. *)
Definition fence_like_run (value : string) : Prop :=
  exists c, (c = "`"%char \/ c = "~"%char) /\ has_run c 3 value.

(** [k] hard-line breaks in a row, concatenated. *)
Definition hardlines (k : nat) : Doc := concat (PArr (List.repeat hardline k)).

(** The rule in the words of the specification: how many hard-line
    breaks stand between two adjacent siblings.  Three when both are
    lists with equal [ordered] flags, three when a list is followed by
    a code block without a language tag, two otherwise. *)
Definition blockJoinRule (prev child : node) : nat :=
  if (type prev =? "list") && (type child =? "list")
     && ordered_eq (n_ordered (attrs prev)) (n_ordered (attrs child))
  then 3
  else if (type prev =? "list") && (type child =? "code")
          && negb (Str.truthy (or_empty (n_lang (attrs child))))
  then 3
  else 2.

(** What a printing function returned: the calls it made to [fill], and
    its Doc or its error. *)
Definition fills {N A} (r : N * M A) : Calls := fst (snd r).
Definition result_of {N A} (r : N * M A) : result A := snd (snd r).

(** What the callback returned for a child: the child as left, its Doc. *)
Definition left_as (r : node * M Doc) : node := fst r.
Definition printed (r : node * M Doc) : Doc :=
  match snd (snd r) with Ok d => d | Throw _ => Text EmptyString end.
Definition succeeds (r : node * M Doc) : Prop :=
  exists d, snd (snd r) = Ok d.

(** The Docs of the children with the rule's separator between each two
    neighbours.  An item is a child as it was handed to the callback and
    what the callback returned for it; the separator after a child is
    chosen when the child has been printed. *)
Fixpoint joinBlocks (items : list (node * (node * M Doc))) : list Doc :=
  match items with
  | [] => []
  | (_, r) :: rest =>
      printed r ::
      match rest with
      | [] => []
      | (c, _) :: _ => hardlines (blockJoinRule (left_as r) c) :: joinBlocks rest
      end
  end.

(** The case labels of the [switch]. *)
Definition handled_types : list string :=
  ["root"; "blockquote"; "break"; "code"; "definition"; "delete";
   "footnoteDefinition"; "footnoteReference"; "footnote"; "heading"; "html";
   "imageReference"; "text"; "paragraph"; "emphasis"; "strong"].

(** If the result is an error, the error has the property [P]. *)
Definition raises_only (P : Error -> Prop) {A} (r : result A) : Prop :=
  forall e, r = Throw e -> P e.

(** The same of the callback on the children [cs] of [parent]. *)
Definition raises_only_on (P : Error -> Prop) (print : Printer)
    (parent : node) (cs : list node) : Prop :=
  Forall (fun c => raises_only P (snd (snd (print (Some parent) c)))) cs.

(** An unknown-type error names a type that has no case. *)
Definition names_unhandled (e : Error) : Prop :=
  forall t, e = UnknownRemarkType t -> kind_of t = KDefault.

(** The number of nodes on the longest path down from [n]. *)
Fixpoint height (n : node) : nat :=
  let 'Node _ _ cs := n in S (list_max (map height cs)).

(** In the words of the specification: each element that is a Concat is
    replaced by its parts, every other element stays. *)
Definition spliceConcats (docs : list Doc) : list Doc :=
  flat_map (fun d => match d with
                     | Concat parts => parts_items parts
                     | _ => [d]
                     end) docs.

(** A content item first and last, and content and separator items in
    turn between them: odd length, content at the even positions,
    separators at the odd ones. *)
Inductive alternating (content separator : Doc -> Prop) : list Doc -> Prop :=
| alt_last (c : Doc) : content c -> alternating content separator [c]
| alt_more (c s : Doc) (rest : list Doc) :
    content c -> separator s -> alternating content separator rest ->
    alternating content separator (c :: s :: rest).

Definition is_word (d : Doc) : Prop := exists s, d = Text s.
Definition is_line (d : Doc) : Prop := exists k, d = Line k.

(** A Concat of words and lines in turn, as the [text] case builds. *)
Definition word_concat (d : Doc) : Prop :=
  exists w, d = Concat (PArr w) /\ alternating is_word is_line w.

(** [n'] is [n] but for this: the [value] of a text node that is the
    first child of a paragraph may have lost its leading white space.
    The flag says whether the node is the first child of a paragraph. *)
Inductive trimmed_only : bool -> node -> node -> Prop :=
| trimmed_node (first : bool) (t : string) (a : Attrs) (v' : string)
    (cs cs' : list node) :
    (v' = n_value a
     \/ (first = true /\ t = "text" /\ v' = Str.trimStart (n_value a))) ->
    trimmed_children (t =? "paragraph") cs cs' ->
    trimmed_only first (Node t a cs) (Node t (with_value a v') cs')
with trimmed_children : bool -> list node -> list node -> Prop :=
| trimmed_nil (b : bool) : trimmed_children b [] []
| trimmed_cons (b : bool) (c c' : node) (cs cs' : list node) :
    trimmed_only b c c' -> trimmed_children false cs cs' ->
    trimmed_children b (c :: cs) (c' :: cs').

(** A callback that leaves its node in the relation. *)
Definition gentle (print : Printer) : Prop :=
  forall parent c, trimmed_only false c (fst (print parent c)).

(** On the sample texts below, which hold letters, digits and fence
    characters only, the capabilities return their argument. *)
Definition same (s : string) : string := s.
Definition no_visitor (_ : node) : string := EmptyString.

Definition plain : Attrs :=
  mkAttrs EmptyString None EmptyString EmptyString None None EmptyString None.

Definition text_node (value : string) : node :=
  Node "text" (with_value plain value) [].
Definition parent_node (t : string) (cs : list node) : node := Node t plain cs.
Definition code_node (lang : option string) (value : string) : node :=
  Node "code" (mkAttrs value lang EmptyString EmptyString None None
                       EmptyString None) [].
Definition list_node (ordered : bool) : node :=
  Node "list" (mkAttrs EmptyString None EmptyString EmptyString None None
                       EmptyString (Some ordered)) [].
Definition footnoteDefinition_node (id : string) (cs : list node) : node :=
  Node "footnoteDefinition"
       (mkAttrs EmptyString None id EmptyString None None EmptyString None) cs.

(** The transformer at the settings of the source. *)
Definition transform : nat -> option node -> node -> node * M Doc :=
  printGenerically same same same same same no_visitor remarkOptions.

(** The settings under which indented code is asked for in a strict
    list item. *)
Definition pedanticOptions : RemarkOptions :=
  {| commonmark := false;
     emphasis := "*";
     strong := "*";
     fence := "`"%char;
     fences := false;
     setext := false;
     closeAtx := false;
     listItemIndent := Some "1";
     pedantic := true |}.

(** A callback that prints every node as its type name, for the cases
    in which what the children print as does not matter. *)
Definition print_type_name : Printer := fun _ c => (c, ret (Text (type c))).

Definition footnote_a : node :=
  footnoteDefinition_node "x" [parent_node "paragraph" [text_node "a"]].

Definition emphasised_a : node :=
  parent_node "paragraph" [parent_node "emphasis" [text_node "a"]].

Definition emphasised_a_b : node :=
  parent_node "paragraph"
    [parent_node "emphasis"
       [text_node "a"; parent_node "strong" [text_node "b"]]].

Definition fenced_js : node := code_node (Some "js") "a```b".

Definition tildes_js : node := code_node (Some "js") "~~~".

Definition item_code : node := code_node None "x".
Definition listItem : node := parent_node "listItem" [item_code].

Definition root_of_lists : node :=
  parent_node "root"
    [list_node true; list_node true; code_node None "x";
     parent_node "paragraph" []; list_node true; list_node false].

Definition two_texts : node :=
  parent_node "paragraph" [text_node " a b"; text_node "c"].

Definition indented_first : node :=
  parent_node "paragraph" [text_node "  a"; text_node "b"].

(* ------------------------------------------------------------------ *)
(** ** Notions of the further properties *)

(** The text without its white space. *)
Fixpoint remove_spaces (s : string) : string :=
  match s with
  | EmptyString => EmptyString
  | String c rest =>
      if Str.is_space c then remove_spaces rest else String c (remove_spaces rest)
  end.

(** The words one after the other. *)
Definition join_words (ws : list string) : string :=
  fold_right String.append EmptyString ws.

(** Every character of the string is white space. *)
Fixpoint all_spaces (s : string) : bool :=
  match s with
  | EmptyString => true
  | String c rest => Str.is_space c && all_spaces rest
  end.

(** The first and the last character of a string are white space. *)
Definition starts_with_space (s : string) : bool :=
  match s with
  | EmptyString => false
  | String c _ => Str.is_space c
  end.

Fixpoint ends_with_space (s : string) : bool :=
  match s with
  | EmptyString => false
  | String c rest =>
      match rest with
      | EmptyString => Str.is_space c
      | String _ _ => ends_with_space rest
      end
  end.

(** A text laid out as its cuts: the first word and then, for each
    further word, the gap that stands before it and the word. *)
Definition weave (w0 : string) (rest : list (string * string)) : string :=
  w0 +++ fold_right (fun p acc => fst p +++ snd p +++ acc) EmptyString rest.

(** A gap is a non-empty run of white space, and the word after it
    holds none. *)
Definition gap_then_word (p : string * string) : Prop :=
  fst p <> EmptyString /\ all_spaces (fst p) = true /\ canWrap (snd p) = false.

(** Of the words that follow a gap all but the last are non-empty: no
    two gaps touch, so that each gap is a whole run of white space. *)
Fixpoint inner_nonempty (rest : list (string * string)) : Prop :=
  match rest with
  | [] => True
  | p :: rest' =>
      match rest' with
      | [] => True
      | _ :: _ => snd p <> EmptyString /\ inner_nonempty rest'
      end
  end.

Definition is_concat (d : Doc) : bool :=
  match d with Concat _ => true | _ => false end.

(** The marker of the three quoting cases. *)
Definition quote_marker (opts : RemarkOptions) (t : string) : string :=
  if t =? "delete" then "~~"
  else if t =? "emphasis" then emphasis opts
  else Str.repeat_str (strong opts) 2.

(** The type of the parent of a path, if there is one. *)
Definition parent_type (parent : option node) : option string :=
  option_map type parent.

(** A callback whose result depends on the parent through its type
    only. *)
Definition reads_parent_type (print : Printer) : Prop :=
  forall p p' c, parent_type p = parent_type p' -> print p c = print p' c.

(** A callback that, given the node it has left, returns the same
    again and leaves the node as it is. *)
Definition settled (print : Printer) : Prop :=
  forall p c, print p (fst (print p c)) = print p c.

(** A callback that leaves text nodes as they are. *)
Definition keeps_text (print : Printer) : Prop :=
  forall p c, type c = "text" -> fst (print p c) = c.

(** The parent is no list item. *)
Definition not_listItem (parent : option node) : Prop :=
  parent_type parent <> Some "listItem".

Definition definition_node (id url : string) (title : option string) : node :=
  Node "definition"
       (mkAttrs EmptyString None id url title None EmptyString None) [].

Definition image_node (alt : option string) (id rtype : string) : node :=
  Node "imageReference"
       (mkAttrs EmptyString None id EmptyString None alt rtype None) [].

Definition strong_a : node := parent_node "strong" [text_node "a"].

Definition root_with_list : node :=
  parent_node "root"
    [parent_node "paragraph" [text_node "  a"]; list_node true;
     parent_node "paragraph" [text_node "  b"]].

(** A formatter that has reached its fixed point after one pass, and one
    that adds a character at each pass; a parser that returns the text;
    the helpers of the debug modes, which these samples do not reach. *)
Definition formats_to_x (_ : string) : Cli.outcome unit string := Cli.Returns "x".
Definition appends_bang (s : string) : Cli.outcome unit string :=
  Cli.Returns (s +++ "!").
Definition parses_to_text (s : string) : Cli.outcome unit string := Cli.Returns s.
Definition no_cursor (s : string) : Cli.outcome unit Cli.Formatted :=
  Cli.Returns (Cli.mkFormatted s None).
Definition no_doc (_ : string) : Cli.outcome unit unit := Cli.Returns tt.
Definition no_text (_ : unit) : Cli.outcome unit string := Cli.Returns EmptyString.
Definition no_diff (_ _ : string) : string := EmptyString.
Definition checking : Cli.Flags := Cli.mkFlags false true.
Definition fresh_process : Cli.Process := Cli.mkProcess [] None None.

(* ================================================================== *)
(** * Properties *)

(* ------------------------------------------------------------------ *)
(** ** Strings and runs *)

Lemma repeat_length (c : ascii) (k : nat) :
  String.length (Str.repeat c k) = k.
Proof. induction k; simpl; congruence. Qed.

Lemma has_run_cons (c x : ascii) (k : nat) (s : string) :
  has_run c k s -> has_run c k (String x s).
Proof.
  intros (pre & post & ->). exists (String x pre), post. reflexivity.
Qed.

Lemma streak_from_best (c : ascii) (s : string) :
  forall run best, best <= streak_from c run best s.
Proof.
  induction s as [|x s IH]; intros run best; simpl.
  - lia.
  - destruct (Ascii.eqb x c).
    + specialize (IH (S run) (Nat.max best (S run))). lia.
    + apply IH.
Qed.

Lemma streak_from_prefix (c : ascii) (post : string) (k : nat) :
  forall run best,
    1 <= k -> run + k <= streak_from c run best (Str.repeat c k +++ post).
Proof.
  induction k as [|k IH]; intros run best Hk; [lia|].
  change (Str.repeat c (S k) +++ post)
    with (String c (Str.repeat c k +++ post)).
  cbn [streak_from]. rewrite Ascii.eqb_refl.
  destruct k as [|k].
  - pose proof (streak_from_best c post (S run) (Nat.max best (S run))) as H.
    pose proof (Nat.le_max_r best (S run)) as Hm.
    simpl. rewrite Nat.add_1_r. exact (Nat.le_trans _ _ _ Hm H).
  - pose proof (IH (S run) (Nat.max best (S run)) ltac:(lia)) as H.
    rewrite <- Nat.add_succ_comm. exact H.
Qed.

(** Every run of [c] in [value] is at most [streak value c] long. *)
Lemma streak_upper (c : ascii) (k : nat) (value : string) :
  has_run c k value -> k <= streak value c.
Proof.
  intros (pre & post & ->). unfold streak.
  generalize 0 at 1 as run. generalize 0 as best.
  induction pre as [|x pre IH]; intros best run.
  - simpl. destruct k as [|k]; [lia|].
    pose proof (streak_from_prefix c post (S k) run best). lia.
  - simpl. destruct (Ascii.eqb x c); apply IH.
Qed.

Lemma streak_from_cases (c : ascii) (s : string) :
  forall run best,
    let r := streak_from c run best s in
    r = best
    \/ (exists j post, r = run + j /\ s = Str.repeat c j +++ post)
    \/ has_run c r s.
Proof.
  induction s as [|x s IH]; intros run best; simpl.
  - left; reflexivity.
  - destruct (Ascii.eqb_spec x c) as [->|Hx].
    + destruct (IH (S run) (Nat.max best (S run))) as [H|[(j & post & H & ->)|H]].
      * destruct (Nat.max_spec best (S run)) as [[_ E]|[_ E]].
        -- right; left. exists 1, s. split; [rewrite H, E; lia | reflexivity].
        -- left. rewrite H. exact E.
      * right; left. exists (S j), post. split; [lia | reflexivity].
      * right; right. apply has_run_cons, H.
    + destruct (IH 0 best) as [H|[(j & post & H & E)|H]].
      * left; exact H.
      * right; right. exists (String x EmptyString), post.
        simpl in H. rewrite H, E. reflexivity.
      * right; right. apply has_run_cons, H.
Qed.

(** [value] does hold a run of [streak value c] copies of [c]. *)
Lemma streak_attained (c : ascii) (value : string) :
  has_run c (streak value c) value.
Proof.
  unfold streak.
  destruct (streak_from_cases c value 0 0) as [H|[(j & post & H & E)|H]].
  - rewrite H. exists EmptyString, value. reflexivity.
  - simpl in H. rewrite H. exists EmptyString, post. exact E.
  - exact H.
Qed.

(** [FENCE.test]: three copies in a row of a backtick or of a tilde. *)
Lemma FENCE_test_spec (value : string) :
  FENCE_test value = true <->
  exists c pre post,
    is_fence_char c = true /\
    value = pre +++ String c (String c (String c post)).
Proof.
  induction value as [|a s IH].
  - split; [discriminate|].
    intros (c & pre & post & _ & E). destruct pre; discriminate.
  - destruct s as [|b [|c' t]].
    + split; [discriminate|].
      intros (c & [|x [|y pre]] & post & _ & E); simpl in E;
        try discriminate; destruct pre; discriminate.
    + split; [discriminate|].
      intros (c & [|x [|y [|z pre]]] & post & _ & E); simpl in E;
        try discriminate.
    + change (FENCE_test (String a (String b (String c' t))))
        with ((is_fence_char a && Ascii.eqb b a && Ascii.eqb c' a)
              || FENCE_test (String b (String c' t))).
      rewrite orb_true_iff, IH. split.
      * intros [H|(c & pre & post & Hc & E)].
        -- apply andb_prop in H as [H H3]. apply andb_prop in H as [H1 H2].
           apply Ascii.eqb_eq in H2, H3. subst.
           exists a, EmptyString, t. split; [assumption | reflexivity].
        -- exists c, (String a pre), post. split; [assumption|].
           simpl. rewrite E. reflexivity.
      * intros (c & pre & post & Hc & E). destruct pre as [|x pre].
        -- simpl in E. injection E as -> -> -> ->. left.
           rewrite Hc, !Ascii.eqb_refl. reflexivity.
        -- simpl in E. injection E as -> E. right.
           exists c, pre, post. split; assumption.
Qed.

(* ------------------------------------------------------------------ *)
(** ** The [code] and [break] cases *)

Lemma is_fence_char_iff (c : ascii) :
  is_fence_char c = true <-> c = "`"%char \/ c = "~"%char.
Proof.
  unfold is_fence_char. rewrite orb_true_iff, !Ascii.eqb_eq. tauto.
Qed.

Lemma FENCE_test_iff (value : string) :
  FENCE_test value = true <-> fence_like_run value.
Proof.
  rewrite FENCE_test_spec. unfold fence_like_run, has_run. split.
  - intros (c & pre & post & Hc & E). exists c. split.
    + apply is_fence_char_iff, Hc.
    + exists pre, post. exact E.
  - intros (c & Hc & pre & post & E). exists c, pre, post. split.
    + apply is_fence_char_iff, Hc.
    + exact E.
Qed.

(** Enter the case of the [switch] that the type equation [Ht] selects. *)
Ltac enter_case Ht :=
  unfold genericPrint_node; rewrite Ht;
  match goal with
  | |- context [kind_of ?t] =>
      let k := eval vm_compute in (kind_of t) in
      change (kind_of t) with k
  end;
  cbv iota.

Section CodeAndBreak.

Variables encode escape uri title toLowerCase : string -> string.
Variable visit : node -> string.
Variable opts : RemarkOptions.
Variable print : Printer.

Let switch := genericPrint_node encode escape uri title toLowerCase visit opts print.

Lemma genericPrint_node_code (parent : option node) (n : node) :
  type n = "code" -> switch parent n = (n, printCode encode opts parent n).
Proof. unfold switch, genericPrint_node. intros ->. reflexivity. Qed.

Lemma printCode_fenced (parent : option node) (n : node) :
  let value := n_value (attrs n) in
  let lang := encode (or_empty (n_lang (attrs n))) in
  let fence_str :=
    Str.repeat (fence opts) (Nat.max (streak value (fence opts) + 1) 3) in
  indentedCode opts lang value = false ->
  printCode encode opts parent n =
  ret (concat (PArr [Text fence_str; Text lang; hardline;
                     if FENCE_test value then indent (Text value) else Text value;
                     hardline; Text fence_str])).
Proof. intros value lang fence_str H. unfold printCode. fold value lang. rewrite H. reflexivity. Qed.

(** C5.  A code node that is printed fenced gets, before and after its
    value, the fence character repeated [max (L + 1) 3] times, where [L]
    is the length of the longest run of that character in the value: a
    run of [L] copies occurs in the value and no run is longer.  The
    fence is therefore longer than every run of its character in the
    value and at least three characters long; with the backtick as fence
    character, a value whose longest run is the three backticks gets a
    fence of four, and any value that holds three backticks in a row a
    fence of at least four. *)
Theorem code_fence_is_longest_run_plus_one (parent : option node) (n : node) :
  let value := n_value (attrs n) in
  let lang := encode (or_empty (n_lang (attrs n))) in
  let marker := fence opts in
  let L := streak value marker in
  let fence_str := Str.repeat marker (Nat.max (L + 1) 3) in
  type n = "code" ->
  indentedCode opts lang value = false ->
  (exists value1,
      snd (switch parent n) =
      ret (concat (PArr [Text fence_str; Text lang; hardline; value1;
                         hardline; Text fence_str])))
  /\ has_run marker L value
  /\ (forall k, has_run marker k value -> k <= L)
  /\ (forall k, has_run marker k value -> k < String.length fence_str)
  /\ 3 <= String.length fence_str
  /\ (marker = "`"%char -> L = 3 -> fence_str = "````")
  /\ (marker = "`"%char -> has_run "`"%char 3 value ->
      4 <= String.length fence_str).
Proof.
  intros value lang marker L fence_str Htype Hfenced.
  assert (Hlen : String.length fence_str = Nat.max (L + 1) 3)
    by apply repeat_length.
  assert (Hup : forall k, has_run marker k value -> k <= L)
    by (intros k; apply streak_upper).
  split; [|split; [|split; [|split; [|split; [|split]]]]].
  - eexists. rewrite genericPrint_node_code by assumption.
    simpl. apply printCode_fenced. exact Hfenced.
  - apply streak_attained.
  - exact Hup.
  - intros k Hk. apply Hup in Hk. rewrite Hlen. lia.
  - rewrite Hlen. lia.
  - intros Hm HL. unfold fence_str. rewrite Hm, HL. reflexivity.
  - intros Hm Hk. rewrite <- Hm in Hk. apply Hup in Hk. rewrite Hlen. lia.
Qed.

(** C6, as amended.  In fenced code the value is indented exactly when
    it holds three copies in a row of a backtick or of a tilde, whichever
    of the two is the configured fence character; otherwise it stands
    between the fences as it is. *)
Theorem code_value_indented_iff_fence_like_run (parent : option node) (n : node) :
  let value := n_value (attrs n) in
  let lang := encode (or_empty (n_lang (attrs n))) in
  type n = "code" ->
  indentedCode opts lang value = false ->
  exists fence_str value1,
    snd (switch parent n) =
    ret (concat (PArr [Text fence_str; Text lang; hardline; value1;
                       hardline; Text fence_str]))
    /\ (fence_like_run value -> value1 = indent (Text value))
    /\ (~ fence_like_run value -> value1 = Text value).
Proof.
  intros value lang Htype Hfenced.
  rewrite genericPrint_node_code by assumption. simpl.
  rewrite printCode_fenced by exact Hfenced. fold value lang.
  do 2 eexists. split; [reflexivity|].
  destruct (FENCE_test value) eqn:E.
  - split; [reflexivity|]. intros H. exfalso. apply H, FENCE_test_iff, E.
  - split; [|reflexivity]. intros H. apply FENCE_test_iff in H. congruence.
Qed.

(** C8.  A code node with no language tag and a non-empty value, with
    fences switched off, throws the indented-code error exactly when its
    parent is a listItem, the list-item indent is not "tab" and pedantic
    is on; in every other case it is printed as the indented value. *)
Theorem indented_code_error_iff (parent : option node) (n : node) :
  let value := n_value (attrs n) in
  let strict :=
    (exists p, parent = Some p /\ type p = "listItem")
    /\ listItemIndent opts <> Some "tab"
    /\ pedantic opts = true in
  type n = "code" ->
  encode EmptyString = EmptyString ->
  Str.truthy (or_empty (n_lang (attrs n))) = false ->
  fences opts = false ->
  value <> EmptyString ->
  (snd (switch parent n) = throw CannotIndentCode <-> strict)
  /\ (~ strict -> snd (switch parent n) = ret (indent (Text value))).
Proof.
  intros value strict Htype Henc Hlang Hfences Hvalue.
  rewrite genericPrint_node_code by assumption. simpl.
  unfold printCode, indentedCode. fold value.
  destruct (or_empty (n_lang (attrs n))) eqn:El; [|discriminate].
  rewrite Henc, Hfences.
  destruct value as [|v0 vs] eqn:Ev; [congruence|]. simpl.
  assert (Hdec :
    (match parent with
     | Some p =>
         (type p =? "listItem")
         && negb (match listItemIndent opts with
                  | Some i => i =? "tab"
                  | None => false
                  end)
         && pedantic opts
     | None => false
     end) = true <-> strict).
  { unfold strict. destruct parent as [p|].
    - rewrite !andb_true_iff, negb_true_iff, String.eqb_eq. split.
      + intros [[Hp Hi] Hped]. split; [exists p; auto|]. split; [|exact Hped].
        destruct (listItemIndent opts) as [i|]; [|discriminate].
        apply String.eqb_neq in Hi. congruence.
      + intros [(p' & [= <-] & Hp) [Hi Hped]]. split; [split|]; auto.
        destruct (listItemIndent opts) as [i|]; [|reflexivity].
        apply String.eqb_neq. congruence.
    - split; [discriminate|]. intros [(p & Hp & _) _]. discriminate. }
  destruct (match parent with Some _ => _ | None => _ end).
  - split; [tauto|]. intros H. exfalso. apply H, Hdec. reflexivity.
  - split.
    + split; [discriminate|]. intros H. apply Hdec in H. discriminate.
    + reflexivity.
Qed.

(** With the commonmark setting off, as the constant [remarkOptions] of
    the source has it, a break node is printed as the hard line and
    nothing else: no [fill] is called and the node is left as it is. *)
Lemma break_is_a_hardline (parent : option node) (n : node) :
  type n = "break" ->
  commonmark opts = false ->
  switch parent n = (n, ret hardline).
Proof.
  intros Ht Hc. unfold switch. enter_case Ht. rewrite Hc. reflexivity.
Qed.

End CodeAndBreak.

(* ------------------------------------------------------------------ *)
(** ** The block-join rule of [printBlock] *)

Lemma block_separator_rule (prev child : node) :
  block_separator prev child = hardlines (blockJoinRule prev child).
Proof.
  unfold block_separator, blockJoinRule.
  destruct (String.eqb_spec (type prev) "list") as [Hp|Hp].
  - rewrite Hp.
    destruct (String.eqb_spec (type child) "list") as [Hc|Hc].
    + rewrite Hc. destruct (ordered_eq _ _); reflexivity.
    + simpl. destruct (type child =? "code"); simpl; [|reflexivity].
      destruct (Str.truthy _); reflexivity.
  - rewrite andb_false_r. reflexivity.
Qed.

Section BlockJoin.

Variable print : Printer.
Variable parent : node.

Let item (c : node) : node * (node * M Doc) := (c, print (Some parent) c).

(** The loop of [printBlock], started with [docs] already pushed and
    [prev] the last child printed. *)
Lemma printBlock_each_join (cs : list node) :
  forall docs prev,
    Forall (fun c => succeeds (print (Some parent) c)) cs ->
    snd (snd (printBlock_each print parent docs prev cs)) =
    Ok (docs
        ++ match prev, cs with
           | Some p, c :: _ => [hardlines (blockJoinRule p c)]
           | _, _ => []
           end
        ++ joinBlocks (map item cs)).
Proof.
  induction cs as [|c cs IH]; intros docs prev Hall.
  - simpl. destruct prev; rewrite app_nil_r; reflexivity.
  - inversion Hall as [|? ? [d Hd] Hrest]; subst.
    cbn [printBlock_each map joinBlocks].
    unfold item at 1. unfold printed, left_as.
    destruct (print (Some parent) c) as [c' [l r]] eqn:Ep.
    simpl in Hd. subst r. cbn [fst snd].
    specialize (IH ((match prev with
                     | Some p => docs ++ [block_separator p c]
                     | None => docs
                     end) ++ [d]) (Some c') Hrest).
    destruct (printBlock_each print parent _ (Some c') cs) as [rest' [l' r']].
    cbn [fst snd] in *. rewrite IH.
    f_equal.
    destruct prev as [p|].
    + rewrite block_separator_rule, <- !app_assoc. simpl.
      destruct cs; reflexivity.
    + rewrite <- !app_assoc. simpl. destruct cs; reflexivity.
Qed.

Lemma printBlock_join (n : node) :
  parent = n ->
  Forall (fun c => succeeds (print (Some n) c)) (children n) ->
  snd (snd (printBlock print n)) =
  Ok (concat (PArr (joinBlocks (map item (children n))))).
Proof.
  intros <- Hall. unfold printBlock.
  pose proof (printBlock_each_join (children parent) [] None Hall) as H.
  destruct (printBlock_each print parent [] None (children parent))
    as [cs' [l r]].
  cbn [fst snd] in *. subst r. reflexivity.
Qed.

End BlockJoin.

Lemma ordered_eq_iff (a b : option bool) : ordered_eq a b = true <-> a = b.
Proof.
  destruct a as [[|]|], b as [[|]|]; simpl; split; congruence.
Qed.

(** The rule gives three breaks in the two cases named, two otherwise. *)
Lemma blockJoinRule_cases (prev child : node) :
  let both_lists_alike :=
    type prev = "list" /\ type child = "list"
    /\ n_ordered (attrs prev) = n_ordered (attrs child) in
  let list_then_plain_code :=
    type prev = "list" /\ type child = "code"
    /\ Str.truthy (or_empty (n_lang (attrs child))) = false in
  (both_lists_alike \/ list_then_plain_code -> blockJoinRule prev child = 3)
  /\ (~ (both_lists_alike \/ list_then_plain_code) ->
      blockJoinRule prev child = 2).
Proof.
  intros A B. unfold A, B, blockJoinRule. clear A B. split.
  - intros [(Hp & Hc & Ho)|(Hp & Hc & Hl)].
    + apply ordered_eq_iff in Ho. rewrite Hp, Hc, Ho. reflexivity.
    + rewrite Hp, Hc, Hl. reflexivity.
  - intros H.
    destruct ((type prev =? "list") && (type child =? "list")
              && ordered_eq (n_ordered (attrs prev)) (n_ordered (attrs child)))
      eqn:E1.
    + exfalso. apply H. left.
      apply andb_prop in E1 as [E1 Ho]. apply andb_prop in E1 as [Hp Hc].
      apply String.eqb_eq in Hp, Hc. apply ordered_eq_iff in Ho. auto.
    + destruct ((type prev =? "list") && (type child =? "code")
                && negb (Str.truthy (or_empty (n_lang (attrs child)))))
        eqn:E2; [|reflexivity].
      exfalso. apply H. right.
      apply andb_prop in E2 as [E2 Hl]. apply andb_prop in E2 as [Hp Hc].
      apply String.eqb_eq in Hp, Hc. apply negb_true_iff in Hl. auto.
Qed.

Lemma joinBlocks_between (items : list (node * (node * M Doc))) :
  forall i c r c2 r2,
    nth_error items i = Some (c, r) ->
    nth_error items (S i) = Some (c2, r2) ->
    nth_error (joinBlocks items) (2 * i) = Some (printed r)
    /\ nth_error (joinBlocks items) (2 * i + 1)
       = Some (hardlines (blockJoinRule (left_as r) c2))
    /\ nth_error (joinBlocks items) (2 * i + 2) = Some (printed r2).
Proof.
  induction items as [|[c0 r0] items IH]; intros i c r c2 r2 H1 H2.
  - destruct i; discriminate.
  - destruct i as [|i].
    + simpl in H1, H2. injection H1 as -> ->.
      destruct items as [|[c1 r1] items]; [discriminate|].
      simpl in H2. injection H2 as -> ->. simpl. auto.
    + simpl in H1. change (nth_error items (S i) = Some (c2, r2)) in H2.
      destruct (IH i c r c2 r2 H1 H2) as (A & B & C).
      destruct items as [|[c1 r1] items]; [destruct i; discriminate|].
      replace (2 * S i) with (S (S (2 * i))) by lia.
      replace (S (S (2 * i)) + 1) with (S (S (2 * i + 1))) by lia.
      replace (S (S (2 * i)) + 2) with (S (S (2 * i + 2))) by lia.
      cbn [joinBlocks nth_error]. cbn [joinBlocks] in A, B, C. auto.
Qed.

Lemma joinBlocks_length (items : list (node * (node * M Doc))) :
  List.length (joinBlocks items) = 2 * List.length items - 1.
Proof.
  induction items as [|[c0 r0] items IH]; [reflexivity|].
  destruct items as [|[c1 r1] items]; [reflexivity|].
  cbn [joinBlocks List.length] in *. lia.
Qed.

Section BlockContainers.

Variables encode escape uri title toLowerCase : string -> string.
Variable visit : node -> string.
Variable opts : RemarkOptions.
Variable print : Printer.

Let switch := genericPrint_node encode escape uri title toLowerCase visit opts print.

(** C3.  Printing a root or a blockquote whose children the callback
    prints: the Docs of the children stand in order, one separator
    between each two neighbours ([2k-1] parts for [k] children), and the
    separator is three hard-line breaks when the two are lists with equal
    [ordered] flags or a list followed by a code block without language
    tag, and two hard-line breaks in every other case, two lists with
    different [ordered] flags among them.  The root appends a hard line,
    the blockquote wraps the block in the marker "> ". *)
Theorem block_children_joined_by_blank_lines (parent : option node) (n : node) :
  let items := map (fun c => (c, print (Some n) c)) (children n) in
  let block := concat (PArr (joinBlocks items)) in
  type n = "root" \/ type n = "blockquote" ->
  Forall (fun c => succeeds (print (Some n) c)) (children n) ->
  (type n = "root" ->
   result_of (switch parent n) = Ok (concat (PArr [block; hardline])))
  /\ (type n = "blockquote" ->
      result_of (switch parent n) = Ok (markerBlock "> " block))
  /\ List.length (joinBlocks items) = 2 * List.length (children n) - 1
  /\ (forall i c r c2 r2,
         nth_error items i = Some (c, r) ->
         nth_error items (S i) = Some (c2, r2) ->
         nth_error (joinBlocks items) (2 * i) = Some (printed r)
         /\ nth_error (joinBlocks items) (2 * i + 1)
            = Some (hardlines (blockJoinRule (left_as r) c2))
         /\ nth_error (joinBlocks items) (2 * i + 2) = Some (printed r2))
  /\ (forall prev child,
         let both_lists_alike :=
           type prev = "list" /\ type child = "list"
           /\ n_ordered (attrs prev) = n_ordered (attrs child) in
         let list_then_plain_code :=
           type prev = "list" /\ type child = "code"
           /\ Str.truthy (or_empty (n_lang (attrs child))) = false in
         (both_lists_alike \/ list_then_plain_code ->
          blockJoinRule prev child = 3)
         /\ (~ (both_lists_alike \/ list_then_plain_code) ->
             blockJoinRule prev child = 2))
  /\ hardlines 2 = hardlinex2 /\ hardlines 3 = hardlinex3.
Proof.
  intros items block _ Hall.
  unfold fills, result_of.
  pose proof (printBlock_join print n n eq_refl Hall) as Hb.
  fold items block in Hb.
  split; [|split; [|split; [|split; [|split; [|split]]]]].
  - intros Ht. unfold switch. enter_case Ht.
    destruct (printBlock print n) as [n' [l r]].
    cbn [fst snd] in *. subst r. unfold bind, ret. reflexivity.
  - intros Ht. unfold switch. enter_case Ht.
    unfold printBlockWithLeftMarkers.
    destruct (printBlock print n) as [n' [l r]].
    cbn [fst snd] in *. subst r. unfold bind, ret. reflexivity.
  - unfold items. rewrite joinBlocks_length, length_map. reflexivity.
  - apply joinBlocks_between.
  - apply blockJoinRule_cases.
  - reflexivity.
  - reflexivity.
Qed.

End BlockContainers.

(* ------------------------------------------------------------------ *)
(** ** The case labels *)

Lemma kind_of_default (t : string) :
  kind_of t = KDefault <-> ~ In t handled_types.
Proof.
  split.
  - intros H Hin. unfold handled_types in Hin. simpl in Hin.
    repeat (destruct Hin as [<-|Hin]; [discriminate H|]). exact Hin.
  - intros H. unfold kind_of.
    repeat match goal with
           | |- context [String.eqb t ?b] =>
               destruct (String.eqb_spec t b) as [E|_];
               [exfalso; apply H; rewrite E; simpl; tauto|]
           end.
    reflexivity.
Qed.

(* ------------------------------------------------------------------ *)
(** ** The errors that printing can raise *)

Section ErrorsRaised.

Variables encode escape uri title toLowerCase : string -> string.
Variable visit : node -> string.
Variable opts : RemarkOptions.

(** A property of errors that the two errors of the transformer's own
    cases have. *)
Variable P : Error -> Prop.
Hypothesis P_fill : P EvenLengthFill.
Hypothesis P_code : P CannotIndentCode.

Lemma raises_ok {A} (a : A) : raises_only P (Ok a).
Proof. intros e H. discriminate. Qed.

Lemma raises_throw {A B} (e : Error) :
  raises_only P (@Throw A e) -> raises_only P (@Throw B e).
Proof. intros H e' [= <-]. apply H. reflexivity. Qed.

Lemma raises_ret {A} (a : A) : raises_only P (snd (ret a)).
Proof. apply raises_ok. Qed.

Lemma raises_bind {A B} (m : M A) (f : A -> M B) :
  raises_only P (snd m) ->
  (forall a, raises_only P (snd (f a))) ->
  raises_only P (snd (bind m f)).
Proof.
  intros Hm Hf. destruct m as [c [a|e]]; simpl.
  - specialize (Hf a). destruct (f a). exact Hf.
  - exact (raises_throw e Hm).
Qed.

Lemma raises_fill (p : Parts Doc) : raises_only P (snd (fill p)).
Proof.
  unfold fill. simpl. destruct (Nat.even _); intros e [= <-]. exact P_fill.
Qed.

Ltac raises_step :=
  repeat first
    [ apply raises_ret
    | apply raises_fill
    | apply raises_bind; [|intros ?]
    | match goal with
      | |- raises_only P (snd (if ?b then _ else _)) => destruct b
      end ].

Lemma raises_path_map (print : Printer) (parent : node) (cs : list node) :
  raises_only_on P print parent cs ->
  raises_only P (snd (snd (path_map print parent cs))).
Proof.
  induction 1 as [|c cs Hc _ IH]; simpl.
  - apply raises_ok.
  - destruct (print (Some parent) c) as [c' [l [d|e]]]; simpl in *.
    + destruct (path_map print parent cs) as [rest' [l' [ds|e]]]; simpl in *.
      * apply raises_ok.
      * exact IH.
    + exact (raises_throw e Hc).
Qed.

Lemma raises_printBlock_each (print : Printer) (parent : node) (cs : list node) :
  raises_only_on P print parent cs ->
  forall docs prev,
    raises_only P (snd (snd (printBlock_each print parent docs prev cs))).
Proof.
  induction 1 as [|c cs Hc _ IH]; intros docs prev; simpl.
  - apply raises_ok.
  - destruct (print (Some parent) c) as [c' [l [d|e]]]; simpl in *.
    + match goal with
      | |- context [printBlock_each print parent ?D ?Q cs] =>
          specialize (IH D Q);
          destruct (printBlock_each print parent D Q cs) as [rest' [l' r]]
      end.
      exact IH.
    + exact (raises_throw e Hc).
Qed.

Lemma raises_printBlock (print : Printer) (n : node) :
  raises_only_on P print n (children n) ->
  raises_only P (snd (snd (printBlock print n))).
Proof.
  intros Hp. unfold printBlock.
  pose proof (raises_printBlock_each print n (children n) Hp [] None) as H.
  destruct (printBlock_each print n [] None (children n)) as [cs' m].
  cbn [fst snd] in *. raises_step. exact H.
Qed.

Lemma raises_printQuoted (print : Printer) (n : node) (l r : string) :
  raises_only_on P print n (children n) ->
  raises_only P (snd (snd (printQuoted print n l r))).
Proof.
  intros Hp. unfold printQuoted.
  pose proof (raises_path_map print n (children n) Hp) as H.
  destruct (path_map print n (children n)) as [cs' m].
  cbn [fst snd] in *. raises_step. exact H.
Qed.

Lemma raises_printCode (parent : option node) (n : node) :
  raises_only P (snd (printCode encode opts parent n)).
Proof.
  unfold printCode.
  destruct (indentedCode _ _ _); [|apply raises_ret].
  destruct (match parent with Some _ => _ | None => _ end).
  - intros e [= <-]. exact P_code.
  - apply raises_ret.
Qed.

(** The errors of one step of the dispatcher: its own, or those of the
    callback on the children, as they are when the callback is called. *)
Lemma raises_genericPrint_node (print : Printer) (parent : option node) (n : node) :
  (kind_of (type n) = KDefault -> P (UnknownRemarkType (type n))) ->
  raises_only_on P print n (children n) ->
  raises_only_on P print (Node (type n) (attrs n) (trimFirstText (children n)))
                 (trimFirstText (children n)) ->
  raises_only P
    (snd (snd (genericPrint_node encode escape uri title toLowerCase visit opts
                 print parent n))).
Proof.
  intros Hdefault Hp Hp1. unfold genericPrint_node.
  destruct (kind_of (type n)) eqn:K;
    try (cbn [fst snd]; apply raises_ret);
    try (apply raises_printQuoted; assumption).
  - (* root *)
    pose proof (raises_printBlock print n Hp) as H.
    destruct (printBlock print n) as [n' m]. cbn [fst snd] in *.
    raises_step. exact H.
  - (* blockquote *)
    unfold printBlockWithLeftMarkers.
    pose proof (raises_printBlock print n Hp) as H.
    destruct (printBlock print n) as [n' m]. cbn [fst snd] in *.
    raises_step. exact H.
  - (* code *)
    apply raises_printCode.
  - (* definition *)
    cbn [fst snd]. unfold printDefinition. raises_step.
  - (* footnoteDefinition *)
    pose proof (raises_printBlock print n Hp) as H.
    destruct (printBlock print n) as [n' m]. cbn [fst snd] in *.
    raises_step. exact H.
  - (* footnote *)
    pose proof (raises_path_map print n (children n) Hp) as H.
    destruct (path_map print n (children n)) as [cs' m].
    cbn [fst snd] in *. raises_step. exact H.
  - (* imageReference *)
    cbn [fst snd]. unfold printWrappingText, printLabel, printWrappingText.
    raises_step.
  - (* paragraph *)
    pose proof (raises_path_map print _ _ Hp1) as H.
    destruct (path_map print _ (trimFirstText (children n))) as [cs' m].
    cbn [fst snd] in *. raises_step. exact H.
  - (* default *)
    cbn [fst snd]. intros e [= <-]. exact (Hdefault eq_refl).
Qed.

End ErrorsRaised.

Lemma height_child (n c : node) : In c (children n) -> height c < height n.
Proof.
  destruct n as [t a cs]. simpl. intros Hin.
  assert (H : Forall (fun k => k <= list_max (map height cs)) (map height cs))
    by (apply list_max_le; reflexivity).
  rewrite Forall_forall in H. specialize (H (height c) (in_map height cs c Hin)).
  lia.
Qed.

Lemma height_set_value (c : node) (v : string) : height (set_value c v) = height c.
Proof. destruct c; reflexivity. Qed.

Lemma height_trimFirstText (cs : list node) :
  map height (trimFirstText cs) = map height cs.
Proof.
  destruct cs as [|c cs]; [reflexivity|]. simpl.
  destruct (type c =? "text"); [|reflexivity].
  simpl. rewrite height_set_value. reflexivity.
Qed.

Section Dispatcher.

Variables encode escape uri title toLowerCase : string -> string.
Variable visit : node -> string.
Variable opts : RemarkOptions.

Let switch := genericPrint_node encode escape uri title toLowerCase visit opts.
Let tied := printGenerically encode escape uri title toLowerCase visit opts.

Lemma printGenerically_names_unhandled (fuel : nat) :
  forall parent n, raises_only names_unhandled (snd (snd (tied fuel parent n))).
Proof.
  induction fuel as [|fuel IH]; intros parent n.
  - simpl. intros e [= <-] t H. discriminate.
  - apply raises_genericPrint_node.
    + intros t H. discriminate.
    + intros t H. discriminate.
    + intros K t [= <-]. exact K.
    + apply Forall_forall. intros c _. apply IH.
    + apply Forall_forall. intros c _. apply IH.
Qed.

(** The recursion bound is not reached when it exceeds the height of
    the node. *)
Lemma printGenerically_enough_fuel (fuel : nat) :
  forall parent n,
    height n < fuel ->
    raises_only (fun e => e <> OutOfFuel) (snd (snd (tied fuel parent n))).
Proof.
  induction fuel as [|fuel IH]; intros parent n Hh; [lia|].
  apply raises_genericPrint_node; try discriminate.
  - apply Forall_forall. intros c Hc. apply IH.
    pose proof (height_child n c Hc). lia.
  - apply Forall_forall. intros c Hc. apply IH.
    apply (in_map height) in Hc. rewrite height_trimFirstText in Hc.
    apply in_map_iff in Hc as (c0 & E & Hc0).
    pose proof (height_child n c0 Hc0). lia.
Qed.

(** C9.  The dispatcher, with itself as the print callback: nothing
    gives the empty string, a string is returned as it is, and a node
    throws the unknown-type error that names its own type exactly when
    that type is none of the case labels. *)
Theorem unknown_type_error_iff_unhandled
    (fuel : nat) (parent : option node) (v : PathValue) :
  let r := genericPrint encode escape uri title toLowerCase visit opts
             (tied fuel) parent v in
  match v with
  | PNull => r = (PNull, ret (Text EmptyString))
  | PString s => r = (PString s, ret (Text s))
  | PNode n =>
      snd (snd r) = Throw (UnknownRemarkType (type n))
      <-> ~ In (type n) handled_types
  end.
Proof.
  intros r. unfold r. clear r.
  unfold fills, result_of.
  destruct v as [|s|n]; [reflexivity|reflexivity|].
  rewrite <- kind_of_default.
  pose proof (printGenerically_names_unhandled (S fuel) parent n) as Hn.
  change (tied (S fuel) parent n) with (switch (tied fuel) parent n) in Hn.
  unfold switch in Hn. unfold genericPrint.
  destruct (genericPrint_node _ _ _ _ _ _ _ _ _ n) as [n' m] eqn:E.
  cbn [fst snd] in *. split.
  - intros H. exact (Hn _ H _ eq_refl).
  - intros K. unfold genericPrint_node in E. rewrite K in E.
    injection E as <- <-. reflexivity.
Qed.

End Dispatcher.

(* ------------------------------------------------------------------ *)
(** ** [intersperse] and [flattenOnce] *)

Lemma intersperse_loop_spec {A} (sep : A) (itemsIn : list A) :
  forall items,
    intersperse_loop sep items itemsIn =
    items ++ match items, itemsIn with
             | [], x :: xs => x :: flat_map (fun y => [sep; y]) xs
             | _, _ => flat_map (fun y => [sep; y]) itemsIn
             end.
Proof.
  induction itemsIn as [|x xs IH]; intros items.
  - simpl. destruct items; rewrite app_nil_r; reflexivity.
  - cbn [intersperse_loop]. rewrite IH.
    destruct items as [|i items].
    + simpl. destruct xs; reflexivity.
    + cbn [List.length Nat.eqb].
      destruct ((i :: items) ++ [sep]) eqn:E1; [destruct items; discriminate|].
      rewrite <- E1.
      destruct (((i :: items) ++ [sep]) ++ [x]) eqn:E2;
        [destruct items; discriminate|].
      rewrite <- E2, <- !app_assoc. reflexivity.
Qed.

Lemma intersperse_cons {A} (sep x : A) (xs : list A) :
  intersperse sep (x :: xs) = x :: flat_map (fun y => [sep; y]) xs.
Proof. unfold intersperse. rewrite intersperse_loop_spec. reflexivity. Qed.

Lemma intersperse_nil {A} (sep : A) : intersperse sep [] = [].
Proof. reflexivity. Qed.

Lemma flattenOnce_loop_spec (docs : list Doc) :
  forall res, flattenOnce_loop res docs = res ++ spliceConcats docs.
Proof.
  induction docs as [|d docs IH]; intros res.
  - simpl. rewrite app_nil_r. reflexivity.
  - destruct d; cbn [flattenOnce_loop]; rewrite IH, <- app_assoc; reflexivity.
Qed.

Lemma flattenOnce_spec (docs : list Doc) : flattenOnce docs = spliceConcats docs.
Proof. unfold flattenOnce. apply flattenOnce_loop_spec. Qed.

Lemma spliceConcats_app (l1 l2 : list Doc) :
  spliceConcats (l1 ++ l2) = spliceConcats l1 ++ spliceConcats l2.
Proof. unfold spliceConcats. apply flat_map_app. Qed.

Section FillArguments.

Variables encode escape uri title toLowerCase : string -> string.
Variable visit : node -> string.
Variable opts : RemarkOptions.
Variable print : Printer.

Let switch := genericPrint_node encode escape uri title toLowerCase visit opts print.

(** C2, as amended.  In the footnote and paragraph cases the sequence
    handed to fill is the sequence of the child Docs (in a paragraph,
    with a soft line between each two) after two splicing passes: each
    pass replaces every element that is a Concat by its parts, so two
    levels of Concat nesting are merged and deeper nesting is kept.
    [flattenOnce] is one such pass, and is not recursive. *)
Theorem fill_gets_children_flattened_twice
    (parent : option node) (n : node) (l : Calls) (ds : list Doc) :
  (type n = "footnote" ->
   snd (path_map print n (children n)) = (l, Ok ds) ->
   fills (switch parent n)
   = l ++ [PArr (spliceConcats (spliceConcats ds))])
  /\ (type n = "paragraph" ->
      let cs1 := trimFirstText (children n) in
      snd (path_map print (Node (type n) (attrs n) cs1) cs1) = (l, Ok ds) ->
      fills (switch parent n)
      = l ++ [PArr (spliceConcats (spliceConcats (intersperse softline ds)))])
  /\ (forall docs, flattenOnce docs = spliceConcats docs)
  /\ (forall x,
         spliceConcats (spliceConcats
           [concat (PArr [concat (PArr [concat x])])]) = [concat x])
  /\ (forall x, flattenOnce [concat (PArr [concat x])] = [concat x]).
Proof.
  split; [|split; [|split; [|split]]].
  - intros Ht H. unfold fills, switch. enter_case Ht.
    destruct (path_map print n (children n)) as [cs' m].
    cbn [fst snd] in *. subst m. unfold bind, fill, ret. cbn [fst snd].
    rewrite !flattenOnce_spec.
    destruct (Nat.even _); rewrite ?app_nil_r; reflexivity.
  - intros Ht cs1 H. unfold fills, switch. enter_case Ht. fold cs1.
    rewrite <- Ht.
    destruct (path_map print (Node (type n) (attrs n) cs1) cs1) as [cs' m].
    cbn [fst snd] in *. subst m. unfold bind, fill, ret. cbn [fst snd].
    rewrite !flattenOnce_spec. reflexivity.
  - apply flattenOnce_spec.
  - intros x. reflexivity.
  - intros x. reflexivity.
Qed.

End FillArguments.

(* ------------------------------------------------------------------ *)
(** ** The shape of the sequences handed to [fill] *)

Section Alternating.

Variables content separator : Doc -> Prop.
Let alt := alternating content separator.

Lemma alternating_odd (l : list Doc) : alt l -> Nat.odd (List.length l) = true.
Proof. induction 1; [reflexivity | simpl; assumption]. Qed.

Lemma alternating_even_false (l : list Doc) :
  alt l -> Nat.even (List.length l) = false.
Proof.
  intros H. apply alternating_odd in H. unfold Nat.odd in H.
  apply negb_true_iff in H. exact H.
Qed.

Lemma alternating_positions (l : list Doc) :
  alt l ->
  forall i d, nth_error l i = Some d ->
              (Nat.even i = true -> content d)
              /\ (Nat.odd i = true -> separator d).
Proof.
  induction 1 as [c Hc|c s rest Hc Hs Hrest IH]; intros i d Hi.
  - destruct i as [|[|i]]; simpl in Hi; try discriminate.
    injection Hi as <-. split; [auto | discriminate].
  - destruct i as [|[|i]]; simpl in Hi.
    + injection Hi as <-. split; [auto | discriminate].
    + injection Hi as <-. split; [discriminate | auto].
    + apply (IH i d Hi).
Qed.

Lemma alternating_app (l1 l2 : list Doc) (s : Doc) :
  alt l1 -> separator s -> alt l2 -> alt (l1 ++ s :: l2).
Proof.
  intros H1 Hs H2. induction H1 as [c Hc|c s' rest Hc Hs' Hrest IH]; simpl.
  - apply alt_more; assumption.
  - apply alt_more; assumption.
Qed.

Lemma alternating_snoc (l : list Doc) (s c : Doc) :
  alt l -> separator s -> content c -> alt (l ++ [s; c]).
Proof. intros Hl Hs Hc. apply alternating_app; [| |apply alt_last]; assumption. Qed.

Lemma alternating_interleave (sep x : Doc) (xs : list Doc) :
  separator sep -> Forall content (x :: xs) ->
  alt (x :: flat_map (fun y => [sep; y]) xs).
Proof.
  intros Hs. revert x. induction xs as [|y ys IH]; intros x Hall.
  - apply alt_last. inversion Hall; assumption.
  - inversion Hall as [|? ? Hx Hrest]; subst. simpl.
    apply alt_more; [assumption | assumption | apply IH, Hrest].
Qed.

Lemma alternating_all (l : list Doc) :
  alt l -> Forall (fun d => content d \/ separator d) l.
Proof.
  induction 1 as [c Hc|c s rest Hc Hs Hrest IH].
  - constructor; [left; exact Hc | constructor].
  - constructor; [left; exact Hc|]. constructor; [right; exact Hs | exact IH].
Qed.

End Alternating.

Lemma split_ws_nonempty (s : string) : forall b, Str.split_ws b s <> [].
Proof.
  induction s as [|c s IH]; intros b; simpl; [discriminate|].
  destruct (Str.is_space c).
  - destruct b; [apply IH | discriminate].
  - destruct (Str.split_ws false s); discriminate.
Qed.

Lemma spliceConcats_plain (l : list Doc) :
  Forall (fun d => is_word d \/ is_line d) l -> spliceConcats l = l.
Proof.
  induction 1 as [|d l [[s ->]|[k ->]] _ IH]; [reflexivity| |];
    unfold spliceConcats in *; simpl; rewrite IH; reflexivity.
Qed.

Lemma spliceConcats_word_concats (sep d : Doc) (ds : list Doc) :
  is_line sep -> Forall word_concat (d :: ds) ->
  alternating is_word is_line
    (spliceConcats (d :: flat_map (fun y => [sep; y]) ds)).
Proof.
  intros (k & ->). revert d. induction ds as [|d' ds IH]; intros d Hall.
  - inversion Hall as [|? ? (w & -> & Hw) _]; subst.
    unfold spliceConcats. simpl. rewrite app_nil_r. exact Hw.
  - inversion Hall as [|? ? (w & -> & Hw) Hrest]; subst.
    specialize (IH d' Hrest).
    change (spliceConcats (Concat (PArr w) :: flat_map (fun y => [Line k; y]) (d' :: ds)))
      with (w ++ Line k :: spliceConcats (d' :: flat_map (fun y => [Line k; y]) ds)).
    apply alternating_app; [exact Hw | exists k; reflexivity | exact IH].
Qed.

Lemma alternating_weaken (C S S' : Doc -> Prop) (l : list Doc) :
  (forall d, S d -> S' d) -> alternating C S l -> alternating C S' l.
Proof.
  intros HS. induction 1; [apply alt_last | apply alt_more]; auto.
Qed.

Lemma truthy_iff (s : string) : Str.truthy s = true <-> s <> EmptyString.
Proof. destruct s; simpl; split; congruence. Qed.

Lemma trimFirstText_nil (cs : list node) : trimFirstText cs = [] -> cs = [].
Proof.
  destruct cs as [|c cs]; [reflexivity|]. simpl.
  destruct (type c =? "text"); discriminate.
Qed.

Section FillShapes.

Variables encode escape uri title toLowerCase : string -> string.
Variable visit : node -> string.
Variable opts : RemarkOptions.

Let switch := genericPrint_node encode escape uri title toLowerCase visit opts.
Let tied := printGenerically encode escape uri title toLowerCase visit opts.
Let words := textToWords encode escape.

Lemma textToWords_alternating (text : string) (shouldEncode shouldEscape : bool) :
  Str.truthy text = true ->
  exists l, words text shouldEncode shouldEscape = PArr l
            /\ alternating is_word (eq line) l.
Proof.
  intros Ht. unfold words, textToWords. rewrite Ht. simpl negb. cbv iota.
  eexists. split; [reflexivity|].
  unfold Str.split.
  destruct (Str.split_ws false text) as [|w ws] eqn:E;
    [exfalso; exact (split_ws_nonempty text false E)|].
  cbn [map]. rewrite intersperse_cons.
  apply alternating_interleave; [reflexivity|].
  constructor; [eexists; reflexivity|].
  apply Forall_map, Forall_forall. intros x _. eexists; reflexivity.
Qed.

Lemma tied_text (fuel : nat) (parent : option node) (c : node) :
  type c = "text" ->
  tied (S fuel) parent c =
  (c, ret (concat (words (n_value (attrs c)) true true))).
Proof.
  intros Ht. change (tied (S fuel) parent c) with (switch (tied fuel) parent c).
  unfold switch. enter_case Ht. reflexivity.
Qed.

Lemma path_map_texts (fuel : nat) (parent : node) (cs : list node) :
  Forall (fun c => type c = "text" /\ n_value (attrs c) <> EmptyString) cs ->
  path_map (tied (S fuel)) parent cs =
  (cs, ret (map (fun c => concat (words (n_value (attrs c)) true true)) cs)).
Proof.
  induction 1 as [|c cs [Ht _] _ IH]; [reflexivity|].
  cbn [path_map]. rewrite (tied_text fuel (Some parent) c Ht). unfold ret at 1.
  rewrite IH. reflexivity.
Qed.

(** The calls to fill that are well formed.  The sequences that the
    transformer builds with [textToWords] from a non-empty text have odd
    length, words at the even positions and [line] at the odd ones: so
    have the id and URL parts of a definition and the id tag of a
    footnoteDefinition.  A paragraph whose children are non-empty text
    nodes hands to fill one sequence of words with [line] or [softline]
    between them.  The footnoteDefinition case hands to fill, after the
    id tag, the two-element sequence of [line] and the content. *)
Theorem fill_sequences_of_words_alternate
    (print : Printer) (fuel : nat) (parent : option node) (n : node) :
  (forall text b1 b2,
      text <> EmptyString ->
      exists l, words text b1 b2 = PArr l
                /\ alternating is_word (eq line) l
                /\ Nat.odd (parts_length (PArr l)) = true)
  /\ (type n = "definition" ->
      exists l,
        alternating is_word (eq line) l
        /\ fills (switch print parent n)
           = PArr l ::
             (if Str.truthy (or_empty (n_title (attrs n)))
              then [words (title (or_empty (n_title (attrs n)))) false false]
              else []))
  /\ (forall l content,
         type n = "footnoteDefinition" ->
         snd (printBlock print n) = (l, Ok content) ->
         exists idTag,
           alternating is_word (eq line) idTag
           /\ fills (switch print parent n)
              = l ++ [PArr idTag; PArr [line; content]])
  /\ (type n = "paragraph" ->
      children n <> [] ->
      Forall (fun c => type c = "text" /\ n_value (attrs c) <> EmptyString)
             (trimFirstText (children n)) ->
      exists l,
        alternating is_word is_line l
        /\ snd (tied (S (S fuel)) parent n) = ([PArr l], Ok (Fill (PArr l)))).
Proof.
  unfold fills, result_of.
  split; [|split; [|split]].
  - intros text b1 b2 Ht. apply truthy_iff in Ht.
    destruct (textToWords_alternating text b1 b2 Ht) as (l & E & Hl).
    exists l. split; [exact E|]. split; [exact Hl|].
    apply (alternating_odd _ _ _ Hl).
  - intros Ht.
    destruct (textToWords_alternating
                ("[" +++ toLowerCase (n_identifier (attrs n)) +++ "]:")
                false false eq_refl) as (l & E & Hl).
    exists (l ++ [line; Text (uri (n_url (attrs n)))]).
    assert (Hall : alternating is_word (eq line)
                     (l ++ [line; Text (uri (n_url (attrs n)))])).
    { apply alternating_snoc; [exact Hl | reflexivity | eexists; reflexivity]. }
    split; [exact Hall|].
    unfold switch. enter_case Ht. cbn [fst snd].
    unfold printDefinition. fold words. rewrite E. cbn [parts_items].
    unfold bind at 1. unfold fill at 1. cbn [parts_length].
    rewrite (alternating_even_false _ _ _ Hall).
    destruct (Str.truthy (or_empty (n_title (attrs n)))).
    + unfold bind, fill, ret.
      destruct (Nat.even (parts_length _)); reflexivity.
    + reflexivity.
  - intros l content Ht Hb.
    destruct (textToWords_alternating
                ("[^" +++ toLowerCase (n_identifier (attrs n)) +++ "]:")
                false false eq_refl) as (idTag & E & Hl).
    exists idTag. split; [exact Hl|].
    unfold switch. enter_case Ht. fold words. rewrite E.
    destruct (printBlock print n) as [n' m]. cbn [fst snd] in *. subst m.
    unfold bind, fill, ret. cbn [parts_length].
    rewrite (alternating_even_false _ _ _ Hl). reflexivity.
  - intros Ht Hne Hall.
    set (cs1 := trimFirstText (children n)) in *.
    set (ds := map (fun c => concat (words (n_value (attrs c)) true true)) cs1).
    assert (Hds : Forall word_concat ds).
    { unfold ds. apply Forall_map.
      eapply Forall_impl; [|exact Hall]. intros c [_ Hv]. cbv beta.
      apply truthy_iff in Hv.
      destruct (textToWords_alternating (n_value (attrs c)) true true Hv)
        as (w & E & Hw).
      exists w. rewrite E. split; [reflexivity|].
      apply (alternating_weaken _ (eq line)); [|exact Hw].
      intros d <-. exists Normal. reflexivity. }
    destruct ds as [|d ds'] eqn:Eds.
    { exfalso. apply Hne, trimFirstText_nil. fold cs1.
      unfold ds in Eds. destruct cs1; [reflexivity | discriminate]. }
    pose proof (spliceConcats_word_concats softline d ds'
                  (ex_intro _ Soft eq_refl) Hds) as Halt.
    rewrite <- intersperse_cons in Halt.
    exists (spliceConcats (intersperse softline (d :: ds'))).
    split; [exact Halt|].
    change (tied (S (S fuel)) parent n) with (switch (tied (S fuel)) parent n).
    unfold switch. enter_case Ht. fold cs1. rewrite <- Ht.
    rewrite (path_map_texts fuel (Node (type n) (attrs n) cs1) cs1 Hall).
    fold ds. rewrite Eds. unfold ret, bind. cbn [fst snd app].
    rewrite !flattenOnce_spec.
    rewrite (spliceConcats_plain (spliceConcats (intersperse softline (d :: ds'))))
      by (apply (alternating_all _ _ _ Halt)).
    unfold fill. cbn [parts_length].
    rewrite (alternating_even_false _ _ _ Halt). reflexivity.
Qed.

End FillShapes.

(* ------------------------------------------------------------------ *)
(** ** What printing leaves of the AST *)

Lemma with_value_same (a : Attrs) : with_value a (n_value a) = a.
Proof. destruct a; reflexivity. Qed.

Lemma with_value_twice (a : Attrs) (v w : string) :
  with_value (with_value a v) w = with_value a w.
Proof. reflexivity. Qed.

Lemma trimmed_refl : forall (n : node) (b : bool), trimmed_only b n n.
Proof.
  fix IH 1. intros [t a cs] b.
  rewrite <- (with_value_same a) at 2.
  apply trimmed_node; [left; reflexivity|].
  generalize (t =? "paragraph").
  induction cs as [|c cs IHcs]; intros b'.
  - apply trimmed_nil.
  - apply trimmed_cons; [apply IH | apply IHcs].
Qed.

Lemma trimmed_children_refl (cs : list node) (b : bool) :
  trimmed_children b cs cs.
Proof.
  revert b. induction cs as [|c cs IH]; intros b.
  - apply trimmed_nil.
  - apply trimmed_cons; [apply trimmed_refl | apply IH].
Qed.

Lemma trimmed_first (n n' : node) (b : bool) :
  trimmed_only false n n' -> trimmed_only b n n'.
Proof.
  intros H. inversion H as [f t a v' cs cs' Hv Hcs]; subst.
  apply trimmed_node; [|exact Hcs].
  destruct Hv as [->|[[=] _]]. left; reflexivity.
Qed.

Lemma trimmed_children_first (cs cs' : list node) (b : bool) :
  trimmed_children false cs cs' -> trimmed_children b cs cs'.
Proof.
  intros H. inversion H; subst.
  - apply trimmed_nil.
  - apply trimmed_cons; [apply trimmed_first|]; assumption.
Qed.

Lemma trimStart_idempotent (s : string) :
  Str.trimStart (Str.trimStart s) = Str.trimStart s.
Proof.
  induction s as [|c s IH]; [reflexivity|]. simpl.
  destruct (Str.is_space c) eqn:E; [exact IH|]. simpl. rewrite E. reflexivity.
Qed.

Lemma trimFirstText_idempotent (cs : list node) :
  trimFirstText (trimFirstText cs) = trimFirstText cs.
Proof.
  destruct cs as [|[t a cs0] rest]; [reflexivity|]. simpl.
  destruct (t =? "text") eqn:E; simpl; rewrite E; [|reflexivity].
  rewrite with_value_twice, trimStart_idempotent. reflexivity.
Qed.

(** After the mutation of the paragraph case, what the children then
    undergo leaves the children in the relation with the flag set. *)
Lemma trimmed_after_trimFirstText (cs cs' : list node) :
  trimmed_children false (trimFirstText cs) cs' -> trimmed_children true cs cs'.
Proof.
  destruct cs as [|[t a cs0] rest]; simpl.
  - apply trimmed_children_first.
  - destruct (String.eqb_spec t "text") as [->|Ht].
    + intros H. inversion H as [|b c c' cs1 cs1' Hc Hrest]; subst.
      apply trimmed_cons; [|exact Hrest].
      inversion Hc as [f t' a' v' cs2 cs2' Hv Hcs]; subst.
      rewrite with_value_twice.
      apply trimmed_node; [|exact Hcs].
      destruct Hv as [->|[[=] _]]. right. simpl. auto.
    + apply trimmed_children_first.
Qed.

Lemma path_map_gentle (print : Printer) (parent : node) (cs : list node) :
  gentle print -> trimmed_children false cs (fst (path_map print parent cs)).
Proof.
  intros Hp. induction cs as [|c cs IH]; simpl.
  - apply trimmed_nil.
  - pose proof (Hp (Some parent) c) as Hc.
    destruct (print (Some parent) c) as [c' [l [d|e]]]; simpl in *.
    + destruct (path_map print parent cs) as [rest' [l' r]]. simpl in *.
      apply trimmed_cons; assumption.
    + apply trimmed_cons; [assumption | apply trimmed_children_refl].
Qed.

Lemma printBlock_each_gentle (print : Printer) (parent : node) (cs : list node) :
  gentle print ->
  forall docs prev,
    trimmed_children false cs (fst (printBlock_each print parent docs prev cs)).
Proof.
  intros Hp. induction cs as [|c cs IH]; intros docs prev; simpl.
  - apply trimmed_nil.
  - pose proof (Hp (Some parent) c) as Hc.
    destruct (print (Some parent) c) as [c' [l [d|e]]]; simpl in *.
    + match goal with
      | |- context [printBlock_each print parent ?D ?P cs] =>
          specialize (IH D P);
          destruct (printBlock_each print parent D P cs) as [rest' [l' r]]
      end.
      simpl in *. apply trimmed_cons; assumption.
    + apply trimmed_cons; [assumption | apply trimmed_children_refl].
Qed.

Lemma trimmed_same_attrs (b : bool) (t : string) (a : Attrs) (cs cs' : list node) :
  trimmed_children (t =? "paragraph") cs cs' ->
  trimmed_only b (Node t a cs) (Node t a cs').
Proof.
  intros H. rewrite <- (with_value_same a) at 2.
  apply trimmed_node; [left; reflexivity | exact H].
Qed.

Lemma kind_of_paragraph (t : string) : kind_of t = KParagraph -> t = "paragraph".
Proof.
  unfold kind_of.
  repeat match goal with
         | |- context [String.eqb t ?b] =>
             destruct (String.eqb_spec t b) as [E|_];
             [try discriminate; intros _; exact E|]
         end.
  discriminate.
Qed.

Section Mutation.

Variables encode escape uri title toLowerCase : string -> string.
Variable visit : node -> string.
Variable opts : RemarkOptions.

Let switch := genericPrint_node encode escape uri title toLowerCase visit opts.
Let tied := printGenerically encode escape uri title toLowerCase visit opts.

Lemma printBlock_gentle (print : Printer) (n : node) (b : bool) :
  gentle print -> type n <> "paragraph" ->
  trimmed_only b n (fst (printBlock print n)).
Proof.
  intros Hp Ht. unfold printBlock.
  pose proof (printBlock_each_gentle print n (children n) Hp [] None) as H.
  destruct (printBlock_each print n [] None (children n)) as [cs' m].
  destruct n as [t a cs]. cbn [fst snd type attrs children] in *.
  apply trimmed_same_attrs, trimmed_children_first, H.
Qed.

Lemma printQuoted_gentle (print : Printer) (n : node) (l r : string) (b : bool) :
  gentle print -> trimmed_only b n (fst (printQuoted print n l r)).
Proof.
  intros Hp. unfold printQuoted.
  pose proof (path_map_gentle print n (children n) Hp) as H.
  destruct (path_map print n (children n)) as [cs' m].
  destruct n as [t a cs]. cbn [fst snd type attrs children] in *.
  apply trimmed_same_attrs, trimmed_children_first, H.
Qed.

Lemma genericPrint_node_gentle (print : Printer) (parent : option node) (n : node) :
  gentle print -> trimmed_only false n (fst (switch print parent n)).
Proof.
  intros Hp. unfold switch, genericPrint_node.
  destruct (kind_of (type n)) eqn:K;
    try (cbn [fst]; apply trimmed_refl);
    try (apply printQuoted_gentle; assumption).
  - (* root *)
    pose proof (printBlock_gentle print n false Hp) as H.
    destruct (printBlock print n) as [n' m]. apply H.
    intros E. rewrite E in K. discriminate.
  - (* blockquote *)
    unfold printBlockWithLeftMarkers.
    pose proof (printBlock_gentle print n false Hp) as H.
    destruct (printBlock print n) as [n' m]. apply H.
    intros E. rewrite E in K. discriminate.
  - (* footnoteDefinition *)
    pose proof (printBlock_gentle print n false Hp) as H.
    destruct (printBlock print n) as [n' m]. apply H.
    intros E. rewrite E in K. discriminate.
  - (* footnote *)
    pose proof (path_map_gentle print n (children n) Hp) as H.
    destruct (path_map print n (children n)) as [cs' m].
    destruct n as [t a cs]. cbn [fst snd type attrs children] in *.
    apply trimmed_same_attrs, trimmed_children_first, H.
  - (* paragraph *)
    apply kind_of_paragraph in K.
    match goal with
    | |- context [path_map print ?P ?C] =>
        pose proof (path_map_gentle print P C Hp) as H;
        destruct (path_map print P C) as [cs' m]
    end.
    destruct n as [t a cs]. cbn [fst snd type attrs children] in *. subst t.
    apply trimmed_same_attrs. simpl String.eqb.
    apply trimmed_after_trimFirstText, H.
Qed.

Lemma printGenerically_gentle (fuel : nat) : gentle (tied fuel).
Proof.
  induction fuel as [|fuel IH]; intros parent c.
  - apply trimmed_refl.
  - apply genericPrint_node_gentle, IH.
Qed.

Lemma tied_text_untouched (fuel : nat) (parent : option node) (c : node) :
  type c = "text" -> fst (tied fuel parent c) = c.
Proof.
  intros Ht. destruct fuel as [|fuel]; [reflexivity|].
  change (tied (S fuel) parent c) with (switch (tied fuel) parent c).
  unfold switch. enter_case Ht. reflexivity.
Qed.

Lemma path_map_head (print : Printer) (parent c : node) (rest : list node) :
  gentle print ->
  exists rest',
    fst (path_map print parent (c :: rest)) = fst (print (Some parent) c) :: rest'
    /\ trimmed_children false rest rest'.
Proof.
  intros Hp. cbn [path_map].
  pose proof (path_map_gentle print parent rest Hp) as Hrest.
  destruct (print (Some parent) c) as [c' [l [d|e]]].
  - destruct (path_map print parent rest) as [rest' [l' r]].
    exists rest'. split; [reflexivity | exact Hrest].
  - exists rest. split; [reflexivity | apply trimmed_children_refl].
Qed.

(** C10.  Printing a paragraph whose first child is a text node leaves
    that child with its value trimmed of leading white space, and what
    is emitted is what the paragraph with the child so trimmed emits.
    Whatever node is printed, it is left as it was but for such values:
    no other field and no other node is changed. *)
Theorem printing_only_trims_first_text_of_paragraph
    (fuel : nat) (parent : option node) (n : node) (c0 : node) (rest : list node) :
  let c0t := set_value c0 (Str.trimStart (n_value (attrs c0))) in
  (type n = "paragraph" ->
   children n = c0 :: rest ->
   type c0 = "text" ->
   (exists rest',
       left_as (tied (S fuel) parent n)
       = Node (type n) (attrs n) (c0t :: rest')
       /\ trimmed_children false rest rest')
   /\ tied (S fuel) parent n
      = tied (S fuel) parent (Node (type n) (attrs n) (c0t :: rest)))
  /\ trimmed_only false n (left_as (tied fuel parent n)).
Proof.
  intros c0t. unfold left_as. split; [|apply printGenerically_gentle].
  intros Ht Hcs Hc0.
  assert (Htrim : trimFirstText (children n) = c0t :: rest).
  { rewrite Hcs. simpl. rewrite Hc0. reflexivity. }
  assert (Hc0t : type c0t = "text").
  { unfold c0t. destruct c0. exact Hc0. }
  split.
  - change (tied (S fuel) parent n) with (switch (tied fuel) parent n).
    unfold switch. enter_case Ht. rewrite <- Ht, Htrim.
    destruct (path_map_head (tied fuel) (Node (type n) (attrs n) (c0t :: rest))
                c0t rest (printGenerically_gentle fuel))
      as (rest' & E & Hrest).
    fold tied.
    destruct (path_map (tied fuel) _ (c0t :: rest)) as [cs' m].
    cbn [fst] in *. subst cs'. rewrite tied_text_untouched by exact Hc0t.
    exists rest'. split; [reflexivity | exact Hrest].
  - change (tied (S fuel) parent n) with (switch (tied fuel) parent n).
    change (tied (S fuel) parent (Node (type n) (attrs n) (c0t :: rest)))
      with (switch (tied fuel) parent (Node (type n) (attrs n) (c0t :: rest))).
    unfold switch, genericPrint_node. cbn [type attrs children]. rewrite Ht.
    change (kind_of "paragraph") with KParagraph. cbv iota.
    rewrite <- Htrim, trimFirstText_idempotent. reflexivity.
Qed.

End Mutation.

(* ================================================================== *)
(** * Concrete documents *)

(** C1 fails on the code.  Printing the footnote definition [[^x]: a]
    hands to fill, third, the sequence of [line] and the content: two
    elements, a separator first; the fill of the specification rejects
    it.  Printing the paragraph [*a**b***] hands to fill the six
    elements that two passes of [flattenOnce] leave of the emphasis, and
    is rejected as well. *)
Lemma footnoteDefinition_fill_gets_two_items :
  fills (transform 3 None footnote_a)
  = [PArr [Text "a"];
     PArr [Text "[^x]:"];
     PArr [line; concat (PArr [Fill (PArr [Text "a"])])]]
  /\ ~ Forall (fun p => Nat.odd (parts_length p) = true)
              (fills (transform 3 None footnote_a))
  /\ result_of (transform 3 None footnote_a) = Throw EvenLengthFill
  /\ fills (transform 4 None emphasised_a_b)
     = [PArr [Text "*"; Text "a"; Text "**"; concat (PArr [Text "b"]);
              Text "**"; Text "*"]]
  /\ result_of (transform 4 None emphasised_a_b) = Throw EvenLengthFill.
Proof.
  assert (E : fills (transform 3 None footnote_a)
              = [PArr [Text "a"];
                 PArr [Text "[^x]:"];
                 PArr [line; concat (PArr [Fill (PArr [Text "a"])])]])
    by reflexivity.
  split; [exact E|]. split; [|split; [|split]]; try reflexivity.
  rewrite E. intros H.
  inversion H as [|? ? _ H1]; subst. inversion H1 as [|? ? _ H2]; subst.
  inversion H2 as [|? ? H3 _]; subst. discriminate H3.
Qed.

(** C2 fails as stated: for the paragraph [*a*] the child Docs are one
    Concat that holds the Concat of the text; one splicing pass leaves
    the inner Concat in place, and the sequence handed to fill has it
    spliced as well. *)
Lemma paragraph_fill_argument_is_not_flattened_once :
  snd (path_map (transform 2) emphasised_a (children emphasised_a))
  = ([], Ok [concat (PArr [Text "*"; concat (PArr [Text "a"]); Text "*"])])
  /\ fills (transform 3 None emphasised_a)
     = [PArr [Text "*"; Text "a"; Text "*"]]
  /\ spliceConcats
       (intersperse softline
          [concat (PArr [Text "*"; concat (PArr [Text "a"]); Text "*"])])
     = [Text "*"; concat (PArr [Text "a"]); Text "*"]
  /\ [Text "*"; Text "a"; Text "*"]
     <> spliceConcats
          (intersperse softline
             [concat (PArr [Text "*"; concat (PArr [Text "a"]); Text "*"])]).
Proof.
  unfold fills, result_of.
  split; [reflexivity|]. split; [reflexivity|]. split; [reflexivity|].
  discriminate.
Qed.

Lemma no_backtick_in_tildes (pre post : string) :
  "~~~" <> pre +++ String "`"%char post.
Proof.
  destruct pre as [|a [|b [|c pre]]]; simpl; try discriminate.
  destruct pre; discriminate.
Qed.

(** C6 fails as stated: at the settings of the source the fence
    character is the backtick; the value [~~~] holds no backtick at all,
    and is indented all the same. *)
Lemma tildes_are_indented_between_backtick_fences :
  fence remarkOptions = "`"%char
  /\ snd (transform 1 None (code_node (Some "js") "~~~"))
     = ret (concat (PArr [Text "```"; Text "js"; hardline;
                          indent (Text "~~~"); hardline; Text "```"]))
  /\ ~ (exists k, 1 <= k /\ has_run (fence remarkOptions) k "~~~").
Proof.
  split; [reflexivity|]. split; [reflexivity|].
  intros (k & Hk & pre & post & E).
  destruct k as [|k]; [lia|].
  exact (no_backtick_in_tildes pre _ E).
Qed.

(* ------------------------------------------------------------------ *)
(** ** The theorems at concrete documents *)

(** A code block that holds three backticks is fenced with four. *)
Lemma code_fence_of_three_backticks :
  type fenced_js = "code"
  /\ indentedCode remarkOptions (same "js") "a```b" = false
  /\ Str.repeat (fence remarkOptions)
       (Nat.max (streak "a```b" (fence remarkOptions) + 1) 3) = "````".
Proof.
  split; [reflexivity|]. split; [reflexivity|].
  destruct (code_fence_is_longest_run_plus_one
              same same same same same no_visitor remarkOptions
              print_type_name None fenced_js eq_refl eq_refl)
    as (_ & _ & _ & _ & _ & H & _).
  exact (H eq_refl eq_refl).
Defined.

Lemma code_value_of_tildes :
  type tildes_js = "code"
  /\ indentedCode remarkOptions (same "js") "~~~" = false
  /\ exists fence_str value1,
       snd (genericPrint_node same same same same same no_visitor
              remarkOptions print_type_name None tildes_js)
       = ret (concat (PArr [Text fence_str; Text "js"; hardline; value1;
                            hardline; Text fence_str]))
       /\ (fence_like_run "~~~" -> value1 = indent (Text "~~~"))
       /\ (~ fence_like_run "~~~" -> value1 = Text "~~~").
Proof.
  split; [reflexivity|]. split; [reflexivity|].
  exact (code_value_indented_iff_fence_like_run
           same same same same same no_visitor remarkOptions
           print_type_name None tildes_js eq_refl eq_refl).
Defined.

Lemma empty_is_not_x : "x" <> EmptyString.
Proof. intros H. discriminate H. Defined.

Lemma indented_code_in_strict_listItem :
  type item_code = "code"
  /\ same EmptyString = EmptyString
  /\ Str.truthy (or_empty (n_lang (attrs item_code))) = false
  /\ fences pedanticOptions = false
  /\ "x" <> EmptyString
  /\ snd (genericPrint_node same same same same same no_visitor
            pedanticOptions print_type_name (Some listItem) item_code)
     = throw CannotIndentCode.
Proof.
  repeat (split; [first [reflexivity | exact empty_is_not_x]|]).
  destruct (indented_code_error_iff
              same same same same same no_visitor pedanticOptions
              print_type_name (Some listItem) item_code
              eq_refl eq_refl eq_refl eq_refl empty_is_not_x)
    as [Hiff _].
  apply Hiff. split; [|split].
  - exists listItem. split; reflexivity.
  - intros H. discriminate H.
  - reflexivity.
Defined.

Lemma root_of_lists_joined :
  (type root_of_lists = "root" \/ type root_of_lists = "blockquote")
  /\ Forall (fun c => succeeds (print_type_name (Some root_of_lists) c))
            (children root_of_lists)
  /\ result_of (genericPrint_node same same same same same no_visitor
                 remarkOptions print_type_name None root_of_lists)
     = Ok (concat (PArr
             [concat (PArr [Text "list"; hardlinex3; Text "list"; hardlinex3;
                            Text "code"; hardlinex2; Text "paragraph";
                            hardlinex2; Text "list"; hardlinex2; Text "list"]);
              hardline])).
Proof.
  unfold fills, result_of.
  assert (Hall : Forall (fun c => succeeds (print_type_name (Some root_of_lists) c))
                        (children root_of_lists)).
  { repeat constructor; eexists; reflexivity. }
  split; [left; reflexivity|]. split; [exact Hall|].
  exact (proj1 (block_children_joined_by_blank_lines
                  same same same same same no_visitor remarkOptions
                  print_type_name None root_of_lists
                  (or_introl eq_refl) Hall) eq_refl).
Defined.

Lemma emphasised_a_flattened_twice :
  type emphasised_a = "paragraph"
  /\ snd (path_map (transform 2)
            (Node (type emphasised_a) (attrs emphasised_a)
                  (trimFirstText (children emphasised_a)))
            (trimFirstText (children emphasised_a)))
     = ([], Ok [concat (PArr [Text "*"; concat (PArr [Text "a"]); Text "*"])])
  /\ fills (genericPrint_node same same same same same no_visitor
                 remarkOptions (transform 2) None emphasised_a)
     = [PArr [Text "*"; Text "a"; Text "*"]].
Proof.
  unfold fills, result_of.
  split; [reflexivity|]. split; [reflexivity|].
  exact (proj1 (proj2 (fill_gets_children_flattened_twice
                         same same same same same no_visitor remarkOptions
                         (transform 2) None emphasised_a []
                         [concat (PArr [Text "*"; concat (PArr [Text "a"]);
                                        Text "*"])]))
           eq_refl eq_refl).
Defined.

Lemma texts_differ_from_empty :
  Forall (fun c => type c = "text" /\ n_value (attrs c) <> EmptyString)
         (trimFirstText (children two_texts)).
Proof.
  repeat constructor; intros H; discriminate H.
Defined.

Lemma two_texts_fill_alternates :
  type two_texts = "paragraph"
  /\ children two_texts <> []
  /\ Forall (fun c => type c = "text" /\ n_value (attrs c) <> EmptyString)
            (trimFirstText (children two_texts))
  /\ exists l,
       alternating is_word is_line l
       /\ snd (transform 2 None two_texts) = ([PArr l], Ok (Fill (PArr l))).
Proof.
  assert (Hne : children two_texts <> []) by (intros H; discriminate H).
  split; [reflexivity|]. split; [exact Hne|].
  split; [exact texts_differ_from_empty|].
  exact (proj2 (proj2 (proj2 (fill_sequences_of_words_alternate
                                same same same same same no_visitor
                                remarkOptions print_type_name 0 None two_texts)))
           eq_refl Hne texts_differ_from_empty).
Defined.

Lemma indented_first_is_trimmed :
  type indented_first = "paragraph"
  /\ children indented_first = [text_node "  a"; text_node "b"]
  /\ type (text_node "  a") = "text"
  /\ (exists rest',
         left_as (transform 2 None indented_first)
         = Node "paragraph" plain (text_node "a" :: rest')
         /\ trimmed_children false [text_node "b"] rest')
  /\ transform 2 None indented_first
     = transform 2 None (parent_node "paragraph" [text_node "a"; text_node "b"]).
Proof.
  split; [reflexivity|]. split; [reflexivity|]. split; [reflexivity|].
  exact (proj1 (printing_only_trims_first_text_of_paragraph
                  same same same same same no_visitor remarkOptions
                  1 None indented_first (text_node "  a") [text_node "b"])
           eq_refl eq_refl eq_refl).
Defined.

(* ================================================================== *)
(** * Further properties *)

(* ------------------------------------------------------------------ *)
(** ** [intersperse], [textToWords], [canWrap], [flattenOnce] *)

Lemma interleave_nth {A} (sep : A) (xs : list A) :
  forall i,
    nth_error (flat_map (fun y => [sep; y]) xs) (2 * i + 1) = nth_error xs i
    /\ (i < List.length xs ->
        nth_error (flat_map (fun y => [sep; y]) xs) (2 * i) = Some sep).
Proof.
  induction xs as [|x xs IH]; intros i.
  - split; [destruct i; reflexivity | simpl; lia].
  - destruct i as [|i].
    + split; [reflexivity | reflexivity].
    + replace (2 * S i + 1) with (S (S (2 * i + 1))) by lia.
      replace (2 * S i) with (S (S (2 * i))) by lia.
      destruct (IH i) as [H1 H2]. simpl. split; [exact H1|].
      intros Hi. apply H2. lia.
Qed.

Lemma interleave_length {A} (sep : A) (xs : list A) :
  List.length (flat_map (fun y => [sep; y]) xs) = 2 * List.length xs.
Proof. induction xs as [|x xs IH]; simpl; [reflexivity | rewrite IH; lia]. Qed.

(** X1.  [intersperse] puts the separator between each two neighbours
    and nowhere else: of [k] items it makes [2k - 1], the items in order
    at the even positions and the separator at the odd ones; of no item
    it makes nothing. *)
Theorem intersperse_separates {A} (sep : A) (items : list A) :
  List.length (intersperse sep items) = 2 * List.length items - 1
  /\ (forall i, nth_error (intersperse sep items) (2 * i) = nth_error items i)
  /\ (forall i, S i < List.length items ->
                nth_error (intersperse sep items) (2 * i + 1) = Some sep)
  /\ (forall i, List.length items <= S i ->
                nth_error (intersperse sep items) (2 * i + 1) = None).
Proof.
  destruct items as [|x xs].
  - split; [reflexivity|]. split; [intros [|i]; reflexivity|].
    split; [intros i Hi; simpl in Hi; lia|].
    intros i _. rewrite intersperse_nil. apply nth_error_None. simpl. lia.
  - rewrite intersperse_cons. repeat split.
    + cbn [List.length]. rewrite interleave_length. lia.
    + intros [|i]; [reflexivity|].
      replace (2 * S i) with (S (2 * i + 1)) by lia.
      cbn [nth_error]. apply interleave_nth.
    + intros i Hi. replace (2 * i + 1) with (S (2 * i)) by lia.
      cbn [nth_error List.length] in *. apply interleave_nth. lia.
    + intros i Hi. apply nth_error_None. cbn [List.length] in *.
      rewrite interleave_length. lia.
Qed.

Lemma split_ws_no_space (s : string) :
  forall b w, In w (Str.split_ws b s) -> canWrap w = false.
Proof.
  induction s as [|c s IH]; intros b w Hin.
  - simpl in Hin. destruct Hin as [<-|[]]. reflexivity.
  - cbn [Str.split_ws] in Hin. destruct (Str.is_space c) eqn:Ec.
    + destruct b.
      * apply (IH true), Hin.
      * destruct Hin as [<-|Hin]; [reflexivity | apply (IH true), Hin].
    + destruct (Str.split_ws false s) as [|w0 ws] eqn:E.
      * destruct Hin as [<-|[]]. simpl. rewrite Ec. reflexivity.
      * destruct Hin as [<-|Hin].
        -- simpl. rewrite Ec. apply (IH false). rewrite E. left. reflexivity.
        -- apply (IH false). rewrite E. right. exact Hin.
Qed.

Lemma split_ws_join (s : string) :
  forall b, join_words (Str.split_ws b s) = remove_spaces s.
Proof.
  induction s as [|c s IH]; intros b; [reflexivity|].
  cbn [Str.split_ws remove_spaces]. destruct (Str.is_space c).
  - destruct b; [apply IH|]. cbn [join_words fold_right]. apply (IH true).
  - specialize (IH false).
    destruct (Str.split_ws false s) as [|w0 ws].
    + simpl in *. rewrite <- IH. reflexivity.
    + cbn [join_words fold_right] in *. simpl. rewrite IH. reflexivity.
Qed.

Lemma split_ws_several (s : string) :
  forall b,
    2 <= List.length (Str.split_ws b s) <->
    canWrap (if b then Str.trimStart s else s) = true.
Proof.
  induction s as [|c s IH]; intros b.
  - destruct b; simpl; split; try discriminate; lia.
  - cbn [Str.split_ws]. destruct (Str.is_space c) eqn:Ec.
    + destruct b.
      * rewrite (IH true). simpl. rewrite Ec. reflexivity.
      * pose proof (split_ws_nonempty s true) as Hne.
        destruct (Str.split_ws true s); [congruence|].
        simpl. rewrite Ec. split; [reflexivity | intros _; lia].
    + specialize (IH false).
      assert (E : canWrap (if b then Str.trimStart (String c s) else String c s)
                  = canWrap s).
      { destruct b; simpl; rewrite Ec; simpl; rewrite ?Ec; reflexivity. }
      rewrite E. pose proof (split_ws_nonempty s false) as Hne.
      destruct (Str.split_ws false s) as [|w0 ws]; [congruence | exact IH].
Qed.

Lemma append_empty_r (s : string) : s +++ EmptyString = s.
Proof. induction s as [|c s IH]; simpl; congruence. Qed.

Lemma append_assoc (s1 s2 s3 : string) :
  (s1 +++ s2) +++ s3 = s1 +++ (s2 +++ s3).
Proof. induction s1 as [|c s1 IH]; simpl; congruence. Qed.

(** [split_ws] lays the text out as its cuts.  When it starts inside a
    run of white space, the rest of the run is dropped, and the first
    word is then empty only if it is the only one. *)
Lemma split_ws_cuts (s : string) :
  forall b,
    exists lead w0 rest,
      Str.split_ws b s = w0 :: map snd rest
      /\ s = lead +++ weave w0 rest
      /\ all_spaces lead = true
      /\ (b = false -> lead = EmptyString)
      /\ (b = true -> rest <> [] -> w0 <> EmptyString)
      /\ canWrap w0 = false
      /\ Forall gap_then_word rest
      /\ inner_nonempty rest.
Proof.
  induction s as [|c s IH]; intros b.
  - exists EmptyString, EmptyString, [].
    repeat split; try reflexivity; try constructor. intros _ H. congruence.
  - cbn [Str.split_ws]. destruct (Str.is_space c) eqn:Ec.
    + destruct (IH true) as (lead & w0 & rest & Hs & Ht & Hl & _ & Hw & Hc & Hf & Hi).
      destruct b.
      * exists (String c lead), w0, rest.
        split; [exact Hs|]. split; [simpl; congruence|].
        split; [simpl; rewrite Ec, Hl; reflexivity|].
        split; [discriminate|]. auto.
      * exists EmptyString, EmptyString, ((String c lead, w0) :: rest).
        split; [simpl; rewrite Hs; reflexivity|].
        split; [unfold weave in *; simpl; congruence|].
        split; [reflexivity|]. split; [reflexivity|].
        split; [discriminate|]. split; [reflexivity|].
        split.
        -- constructor; [|exact Hf].
           split; [discriminate|]. split; [simpl; rewrite Ec, Hl; reflexivity|].
           exact Hc.
        -- destruct rest as [|p rest]; [exact I|].
           split; [apply Hw; [reflexivity | discriminate] | exact Hi].
    + destruct (IH false) as (lead & w0 & rest & Hs & Ht & _ & Hb & _ & Hc & Hf & Hi).
      rewrite (Hb eq_refl) in Ht. rewrite Hs.
      exists EmptyString, (String c w0), rest.
      split; [reflexivity|]. split; [unfold weave in *; simpl in *; congruence|].
      split; [reflexivity|]. split; [reflexivity|].
      split; [discriminate|].
      split; [simpl; rewrite Ec, Hc; reflexivity|]. auto.
Qed.

(** A text laid out as its cuts ends with its last word. *)
Lemma weave_ends_with_last (rest : list (string * string)) :
  forall w0,
    canWrap w0 = false ->
    Forall gap_then_word rest ->
    exists pre,
      weave w0 rest = pre +++ last (w0 :: map snd rest) EmptyString
      /\ canWrap (last (w0 :: map snd rest) EmptyString) = false.
Proof.
  induction rest as [|[gap w] rest IH]; intros w0 Hw Hf.
  - exists EmptyString. split; [apply append_empty_r | exact Hw].
  - inversion Hf as [|p l (_ & _ & Hgw) Hf']; subst.
    destruct (IH w Hgw Hf') as (pre & E & Hlast).
    exists (w0 +++ gap +++ pre). split; [|exact Hlast].
    change (last (w0 :: map snd ((gap, w) :: rest)) EmptyString)
      with (last (w :: map snd rest) EmptyString).
    rewrite !append_assoc, <- E. reflexivity.
Qed.

Lemma ends_with_space_app (pre w : string) :
  w <> EmptyString -> ends_with_space (pre +++ w) = ends_with_space w.
Proof.
  intros Hw. induction pre as [|c pre IH]; [reflexivity|].
  cbn [String.append ends_with_space].
  destruct (pre +++ w) as [|a t] eqn:E; [|exact IH].
  destruct pre; simpl in E; [congruence | discriminate].
Qed.

Lemma no_space_at_the_end (w : string) :
  canWrap w = false -> ends_with_space w = false.
Proof.
  induction w as [|c w IH]; [reflexivity|]. cbn [canWrap ends_with_space].
  intros H. apply orb_false_elim in H as [Hc Hw].
  destruct w; [exact Hc | exact (IH Hw)].
Qed.

Section Words.

Variables encode escape : string -> string.

Let words := textToWords encode escape.

(** X2.  [textToWords] cuts a non-empty text at its runs of white
    space and nowhere else.  With escaping and encoding off, what it
    hands over is a first word and, for each gap, the word after it,
    with [line] between each two; the text is the first word followed
    by each gap and its word in turn; every gap is a non-empty run of
    white space; no word holds white space; and every word but the first
    and the last is non-empty, so no run is cut twice.  White space at
    the start of the text makes the first word empty, white space at its
    end the last; and the words, one after the other, are the text
    without its white space. *)
Theorem textToWords_cuts_at_whitespace_runs (text : string) :
  text <> EmptyString ->
  exists w0 rest,
    words text false false
    = PArr (intersperse line (map Text (w0 :: map snd rest)))
    /\ text = weave w0 rest
    /\ canWrap w0 = false
    /\ Forall gap_then_word rest
    /\ inner_nonempty rest
    /\ (starts_with_space text = true -> w0 = EmptyString)
    /\ (ends_with_space text = true ->
        last (w0 :: map snd rest) EmptyString = EmptyString)
    /\ join_words (w0 :: map snd rest) = remove_spaces text.
Proof.
  intros Ht. apply truthy_iff in Ht.
  destruct (split_ws_cuts text false)
    as (lead & w0 & rest & Hs & Hw & _ & Hb & _ & Hc & Hf & Hi).
  rewrite (Hb eq_refl) in Hw. change (EmptyString +++ weave w0 rest)
    with (weave w0 rest) in Hw.
  exists w0, rest. unfold words, textToWords. rewrite Ht.
  change (Str.split text) with (Str.split_ws false text).
  split; [cbn [negb]; rewrite Hs; reflexivity|].
  split; [exact Hw|]. split; [exact Hc|]. split; [exact Hf|].
  split; [exact Hi|]. split; [|split].
  - destruct text as [|c s]; [discriminate|]. cbn [starts_with_space].
    intros Ec. cbn [Str.split_ws] in Hs. rewrite Ec in Hs. congruence.
  - intros He.
    destruct (weave_ends_with_last rest w0 Hc Hf) as (pre & E & Hlast).
    destruct (last (w0 :: map snd rest) EmptyString) as [|a t] eqn:El;
      [reflexivity|].
    rewrite Hw, E, ends_with_space_app in He by discriminate.
    rewrite (no_space_at_the_end _ Hlast) in He. discriminate.
  - rewrite <- Hs. apply split_ws_join.
Qed.

(** X3.  [canWrap] says whether [textToWords] leaves a place to break:
    it is true of a text exactly when the sequence made of the text
    holds a [line], which is when the text has more than one word. *)
Theorem canWrap_iff_textToWords_has_line
    (text : string) (shouldEncode shouldEscape : bool) :
  canWrap text = true
  <-> In line (parts_items (words text shouldEncode shouldEscape)).
Proof.
  unfold words, textToWords.
  destruct (Str.truthy text) eqn:Ht.
  - cbn [negb parts_items].
    rewrite <- (split_ws_several text false). cbv iota. unfold Str.split.
    set (f := fun word : string => _).
    destruct (Str.split_ws false text) as [|w ws].
    + simpl. split; [lia | intros []].
    + cbn [map]. rewrite intersperse_cons. cbn [List.length]. split.
      * intros Hlen. destruct ws as [|w' ws]; [simpl in Hlen; lia|].
        right. left. reflexivity.
      * intros [Hin|Hin]; [discriminate Hin|].
        destruct ws; [destruct Hin | simpl; lia].
  - destruct text; [|discriminate]. simpl. split; [discriminate | intros []].
Qed.

End Words.

Lemma spliceConcats_none (l : list Doc) :
  forallb (fun d => negb (is_concat d)) l = true -> spliceConcats l = l.
Proof.
  induction l as [|d l IH]; [reflexivity|]. cbn [forallb].
  intros H. apply andb_prop in H as [Hd Hl].
  unfold spliceConcats in *. cbn [flat_map]. rewrite (IH Hl).
  destruct d; try reflexivity. discriminate.
Qed.

(** X4.  [flattenOnce] works element by element: the result for two
    sequences joined is the two results joined; a sequence without a
    Concat is returned as it is; and of Concats made over arrays it
    gives the arrays joined, whatever the arrays hold. *)
Theorem flattenOnce_elementwise (l1 l2 : list Doc) (arrays : list (list Doc)) :
  flattenOnce (l1 ++ l2) = flattenOnce l1 ++ flattenOnce l2
  /\ (forallb (fun d => negb (is_concat d)) l1 = true -> flattenOnce l1 = l1)
  /\ flattenOnce (map (fun a => concat (PArr a)) arrays) = List.concat arrays.
Proof.
  rewrite !flattenOnce_spec. split; [apply spliceConcats_app|]. split.
  - apply spliceConcats_none.
  - unfold spliceConcats. induction arrays as [|a arrays IH]; [reflexivity|].
    simpl. rewrite IH. reflexivity.
Qed.

(* ------------------------------------------------------------------ *)
(** ** Labels, quoting and definitions *)

Section LabelsAndQuotes.

Variables encode escape uri title toLowerCase : string -> string.
Variable visit : node -> string.
Variable opts : RemarkOptions.
Variable print : Printer.

Let switch := genericPrint_node encode escape uri title toLowerCase visit opts print.
Let words := textToWords encode escape.

Lemma fill_of_words (text : string) (b1 b2 : bool) :
  Str.truthy text = true ->
  exists l, words text b1 b2 = PArr l
            /\ fill (words text b1 b2) = ([PArr l], Ok (Fill (PArr l))).
Proof.
  intros Ht.
  destruct (textToWords_alternating encode escape text b1 b2 Ht) as (l & E & Hl).
  exists l. fold words in E. rewrite E. split; [reflexivity|].
  unfold fill. cbn [parts_length].
  rewrite (alternating_even_false _ _ _ Hl). reflexivity.
Qed.

(** X5.  The label of a reference is nothing for a shortcut, the
    wrapped identifier in brackets for a full reference with a non-empty
    identifier, and empty brackets for every other reference type; only
    the full reference calls fill.  An image reference with a non-empty
    alt text is [![], the wrapped alt text, [], and that label. *)
Theorem reference_label_follows_referenceType (parent : option node) (n : node) :
  let rtype := n_referenceType (attrs n) in
  let id := n_identifier (attrs n) in
  let alt := or_empty (n_alt (attrs n)) in
  (rtype = "shortcut" -> printLabel encode escape n = ret (Text EmptyString))
  /\ (rtype = "full" -> id <> EmptyString ->
      printLabel encode escape n
      = ([words id false false],
         Ok (concat (PArr [Text "["; Fill (words id false false); Text "]"]))))
  /\ (rtype <> "shortcut" -> rtype <> "full" ->
      printLabel encode escape n
      = ret (concat (PArr [Text "["; Text EmptyString; Text "]"])))
  /\ (type n = "imageReference" -> alt <> EmptyString ->
      forall l label,
        printLabel encode escape n = (l, Ok label) ->
        switch parent n
        = (n, (words alt true false :: l,
               Ok (concat (PArr [Text "!["; Fill (words alt true false);
                                 Text "]"; label]))))).
Proof.
  intros rtype id alt. split; [|split; [|split]].
  - intros E. unfold printLabel. fold rtype. rewrite E. reflexivity.
  - intros E Hid. unfold printLabel, printWrappingText. fold rtype id words.
    rewrite E. apply truthy_iff in Hid.
    destruct (fill_of_words id false false Hid) as (l & El & Ef).
    change (("full" =? "full")) with true. change ("full" =? "shortcut") with false.
    cbv iota. rewrite Ef, El. reflexivity.
  - intros H1 H2. unfold printLabel. fold rtype.
    apply String.eqb_neq in H1, H2. rewrite H1, H2. reflexivity.
  - intros Ht Halt l label Hl. unfold switch. enter_case Ht.
    unfold printWrappingText. fold words alt. apply truthy_iff in Halt.
    destruct (fill_of_words alt true false Halt) as (la & Ela & Ef).
    unfold bind. rewrite Ef. cbv beta iota. rewrite Hl. cbv beta iota.
    unfold ret. rewrite Ela, app_nil_r. reflexivity.
Qed.

(** X6.  The delete, emphasis and strong cases put the Docs of the
    children, in order, between two copies of one marker: two tildes,
    the emphasis marker, or the strong marker twice.  They call fill
    only through the children, and an error of a child is their error. *)
Theorem quoted_children_stand_between_equal_markers
    (parent : option node) (n : node) (l : Calls) :
  type n = "delete" \/ type n = "emphasis" \/ type n = "strong" ->
  (forall ds,
      snd (path_map print n (children n)) = (l, Ok ds) ->
      snd (switch parent n)
      = (l, Ok (concat (PArr (Text (quote_marker opts (type n)) :: ds
                              ++ [Text (quote_marker opts (type n))])))))
  /\ (forall e,
         snd (path_map print n (children n)) = (l, Throw e) ->
         snd (switch parent n) = (l, Throw e))
  /\ fst (switch parent n)
     = Node (type n) (attrs n) (fst (path_map print n (children n))).
Proof.
  intros Ht.
  assert (E : switch parent n
              = printQuoted print n (quote_marker opts (type n))
                            (quote_marker opts (type n))).
  { unfold switch.
    destruct Ht as [Ht|[Ht|Ht]]; enter_case Ht; reflexivity. }
  rewrite E. unfold printQuoted.
  destruct (path_map print n (children n)) as [cs' m]. cbn [fst snd].
  split; [|split; [|reflexivity]].
  - intros ds ->. unfold bind, ret. rewrite app_nil_r. reflexivity.
  - intros e ->. reflexivity.
Qed.

(** X7.  A definition prints without error whenever the title, if there
    is one, is enclosed to a non-empty string.  It is the group of the
    indented Concat of the wrapped label and URL and, if there is a
    title, of a line and the wrapped title; the label is the lowercased
    identifier in brackets with a colon, and the last two of the first
    fill are a line and the enclosed URL.  The node is left as it is and
    no child is printed. *)
Theorem definition_prints_label_url_and_title (parent : option node) (n : node) :
  let id := toLowerCase (n_identifier (attrs n)) in
  let t := or_empty (n_title (attrs n)) in
  type n = "definition" ->
  (t <> EmptyString -> title t <> EmptyString) ->
  exists label,
    words ("[" +++ id +++ "]:") false false = PArr label
    /\ alternating is_word (eq line) label
    /\ let first := label ++ [line; Text (uri (n_url (attrs n)))] in
       switch parent n
       = (n,
          if Str.truthy t
          then ([PArr first; words (title t) false false],
                Ok (group (indent (concat
                      (PArr [Fill (PArr first); line;
                             Fill (words (title t) false false)])))))
          else ([PArr first],
                Ok (group (indent (concat (PArr [Fill (PArr first)])))))).
Proof.
  intros id t Ht Htitle.
  destruct (textToWords_alternating encode escape ("[" +++ id +++ "]:")
              false false eq_refl) as (label & E & Hl).
  exists label. fold words in E. split; [exact E|]. split; [exact Hl|].
  intros first.
  assert (Hfirst : alternating is_word (eq line) first).
  { apply alternating_snoc; [exact Hl | reflexivity | eexists; reflexivity]. }
  unfold switch. enter_case Ht. unfold printDefinition.
  fold words id t. rewrite E. cbn [parts_items]. fold first.
  unfold bind at 1. unfold fill at 1. cbn [parts_length].
  rewrite (alternating_even_false _ _ _ Hfirst).
  destruct (Str.truthy t) eqn:Et.
  - assert (Hne : Str.truthy (title t) = true).
    { apply truthy_iff, Htitle, truthy_iff, Et. }
    destruct (fill_of_words (title t) false false Hne) as (w & Ew & Ef).
    rewrite Ef, Ew. reflexivity.
  - reflexivity.
Qed.

End LabelsAndQuotes.

(* ------------------------------------------------------------------ *)
(** ** The first child that fails *)

Section FirstFailure.

Variable print : Printer.
Variable parent : node.

Let run (c : node) : node * M Doc := print (Some parent) c.

Lemma path_map_app_failure (pre : list node) :
  forall c post e,
    Forall (fun x => succeeds (run x)) pre ->
    result_of (run c) = Throw e ->
    path_map print parent (pre ++ c :: post)
    = (map (fun x => left_as (run x)) pre ++ left_as (run c) :: post,
       (flat_map (fun x => fills (run x)) (pre ++ [c]), Throw e)).
Proof.
  unfold succeeds, result_of, left_as, fills, run.
  induction pre as [|x pre IH]; intros c post e Hpre Hc.
  - cbn [app path_map map flat_map].
    destruct (print (Some parent) c) as [c' [l r]]. cbn [fst snd] in *.
    subst r. rewrite app_nil_r. reflexivity.
  - inversion Hpre as [|? ? [d Hd] Hrest]; subst.
    cbn [app path_map map flat_map].
    rewrite (IH c post e Hrest Hc).
    destruct (print (Some parent) x) as [x' [l r]]. cbn [fst snd] in *.
    subst r. reflexivity.
Qed.

Lemma printBlock_each_app_failure (pre : list node) :
  forall c post e docs prev,
    Forall (fun x => succeeds (run x)) pre ->
    result_of (run c) = Throw e ->
    let r := printBlock_each print parent docs prev (pre ++ c :: post) in
    fst r = map (fun x => left_as (run x)) pre ++ left_as (run c) :: post
    /\ snd r = (flat_map (fun x => fills (run x)) (pre ++ [c]), Throw e).
Proof.
  unfold succeeds, result_of, left_as, fills, run.
  induction pre as [|x pre IH]; intros c post e docs prev Hpre Hc.
  - cbn [app printBlock_each map flat_map].
    destruct (print (Some parent) c) as [c' [l r]]. cbn [fst snd] in *.
    subst r. rewrite app_nil_r. split; reflexivity.
  - inversion Hpre as [|? ? [d Hd] Hrest]; subst.
    cbn [app printBlock_each map flat_map].
    destruct (print (Some parent) x) as [x' [l r]] eqn:Ex. cbn [fst snd] in *.
    subst r.
    match goal with
    | |- context [printBlock_each print parent ?D ?P (pre ++ c :: post)] =>
        destruct (IH c post e D P Hrest Hc) as [H1 H2];
        destruct (printBlock_each print parent D P (pre ++ c :: post))
          as [rest' [l' r']]
    end.
    cbn [fst snd] in *. subst rest'. injection H2 as -> ->.
    split; reflexivity.
Qed.

(** X8.  Printing the children stops at the first child that throws,
    in [path.map] and in the loop of [printBlock] alike: the error is
    that child's, the calls to fill are those of the children up to it,
    and the children behind it are left as they were, not printed. *)
Theorem printing_children_stops_at_first_failure
    (pre post : list node) (c : node) (e : Error) :
  Forall (fun x => succeeds (run x)) pre ->
  result_of (run c) = Throw e ->
  path_map print parent (pre ++ c :: post)
  = (map (fun x => left_as (run x)) pre ++ left_as (run c) :: post,
     (flat_map (fun x => fills (run x)) (pre ++ [c]), Throw e))
  /\ (children parent = pre ++ c :: post ->
      printBlock print parent
      = (Node (type parent) (attrs parent)
              (map (fun x => left_as (run x)) pre ++ left_as (run c) :: post),
         (flat_map (fun x => fills (run x)) (pre ++ [c]), Throw e))).
Proof.
  intros Hpre Hc. split; [apply path_map_app_failure; assumption|].
  intros Hcs. unfold printBlock. rewrite Hcs.
  destruct (printBlock_each_app_failure pre c post e [] None Hpre Hc) as [H1 H2].
  destruct (printBlock_each print parent [] None (pre ++ c :: post)) as [cs' m].
  cbn [fst snd] in *. subst cs' m. reflexivity.
Qed.

End FirstFailure.

(* ------------------------------------------------------------------ *)
(** ** The indented-code error is out of reach *)

Ltac raises_walk Hfill :=
  repeat first
    [ apply raises_ret
    | apply (raises_fill _ Hfill)
    | apply raises_bind; [|intros ?]
    | match goal with
      | |- raises_only _ (snd (if ?b then _ else _)) => destruct b
      end ].

Lemma kind_of_listItem : kind_of "listItem" = KDefault.
Proof. reflexivity. Qed.

Section NoIndentedCodeError.

Variables encode escape uri title toLowerCase : string -> string.
Variable visit : node -> string.
Variable opts : RemarkOptions.

Let switch := genericPrint_node encode escape uri title toLowerCase visit opts.
Let tied := printGenerically encode escape uri title toLowerCase visit opts.
Let other (e : Error) : Prop := e <> CannotIndentCode.

Lemma other_fill : other EvenLengthFill.
Proof. intros H. discriminate H. Qed.

Lemma printCode_outside_listItem (parent : option node) (n : node) :
  not_listItem parent ->
  raises_only other (snd (printCode encode opts parent n)).
Proof.
  intros Hp. unfold printCode.
  destruct (indentedCode _ _ _); [|apply raises_ret].
  destruct parent as [p|]; [|apply raises_ret].
  assert (E : (type p =? "listItem") = false).
  { apply String.eqb_neq. intros H. apply Hp. simpl. rewrite H. reflexivity. }
  rewrite E. apply raises_ret.
Qed.

(** One step of the dispatcher, the callback being given parents of the
    type of the node only. *)
Lemma genericPrint_node_outside_listItem
    (print : Printer) (parent : option node) (n : node) :
  not_listItem parent ->
  (kind_of (type n) <> KDefault ->
   forall p c, type p = type n ->
               raises_only other (snd (snd (print (Some p) c)))) ->
  raises_only other (snd (snd (switch print parent n))).
Proof.
  intros Hparent Hprint.
  assert (Hon : kind_of (type n) <> KDefault ->
                forall p cs, type p = type n -> raises_only_on other print p cs).
  { intros K p cs Hp. apply Forall_forall. intros c _. apply Hprint; assumption. }
  unfold switch, genericPrint_node.
  destruct (kind_of (type n)) eqn:K;
    try (cbn [fst snd]; apply raises_ret);
    try (apply raises_printQuoted, Hon; [discriminate | reflexivity]).
  - (* root *)
    pose proof (raises_printBlock other print n
                  (Hon ltac:(discriminate) n _ eq_refl)) as H.
    destruct (printBlock print n) as [n' m]. cbn [fst snd] in *.
    raises_walk other_fill. exact H.
  - (* blockquote *)
    unfold printBlockWithLeftMarkers.
    pose proof (raises_printBlock other print n
                  (Hon ltac:(discriminate) n _ eq_refl)) as H.
    destruct (printBlock print n) as [n' m]. cbn [fst snd] in *.
    raises_walk other_fill. exact H.
  - (* code *)
    apply printCode_outside_listItem, Hparent.
  - (* definition *)
    cbn [fst snd]. unfold printDefinition. raises_walk other_fill.
  - (* footnoteDefinition *)
    pose proof (raises_printBlock other print n
                  (Hon ltac:(discriminate) n _ eq_refl)) as H.
    destruct (printBlock print n) as [n' m]. cbn [fst snd] in *.
    raises_walk other_fill. exact H.
  - (* footnote *)
    pose proof (raises_path_map other print n (children n)
                  (Hon ltac:(discriminate) n _ eq_refl)) as H.
    destruct (path_map print n (children n)) as [cs' m].
    cbn [fst snd] in *. raises_walk other_fill. exact H.
  - (* imageReference *)
    cbn [fst snd]. unfold printWrappingText, printLabel, printWrappingText.
    raises_walk other_fill.
  - (* paragraph *)
    pose proof (raises_path_map other print
                  (Node (type n) (attrs n) (trimFirstText (children n)))
                  (trimFirstText (children n))
                  (Hon ltac:(discriminate)
                       (Node (type n) (attrs n) (trimFirstText (children n)))
                       _ eq_refl)) as H.
    destruct (path_map print _ (trimFirstText (children n))) as [cs' m].
    cbn [fst snd] in *. raises_walk other_fill. exact H.
  - (* default *)
    cbn [fst snd]. intros e [= <-] H. discriminate H.
Qed.

(** X9.  From a path whose parent is no list item, and so from every
    root, printing never throws the indented-code error, whatever the
    options: a code node is reached only under a node that has a case,
    and listItem has none. *)
Theorem indented_code_error_is_unreachable
    (fuel : nat) (parent : option node) (n : node) :
  not_listItem parent ->
  result_of (tied fuel parent n) <> Throw CannotIndentCode.
Proof.
  unfold result_of. revert parent n.
  assert (H : forall parent n,
             not_listItem parent ->
             raises_only other (snd (snd (tied fuel parent n)))).
  { induction fuel as [|fuel IH]; intros parent n Hp.
    - simpl. intros e [= <-] H. discriminate H.
    - apply genericPrint_node_outside_listItem; [exact Hp|].
      intros K p c Hpt. apply IH. unfold not_listItem. simpl.
      intros [= E]. apply K. rewrite <- Hpt, E. exact kind_of_listItem. }
  intros parent n Hp E. exact (H parent n Hp _ E eq_refl).
Qed.

End NoIndentedCodeError.

(* ------------------------------------------------------------------ *)
(** ** Printing again what printing left *)

Lemma trimmed_only_reads (b : bool) (n n' : node) :
  trimmed_only b n n' ->
  type n' = type n
  /\ n_ordered (attrs n') = n_ordered (attrs n)
  /\ n_lang (attrs n') = n_lang (attrs n).
Proof. intros H. inversion H; subst. simpl. auto. Qed.

Lemma block_separator_trimmed (prev child child' : node) :
  trimmed_only false child child' ->
  block_separator prev child' = block_separator prev child.
Proof.
  intros H. apply trimmed_only_reads in H as (Ht & Ho & Hl).
  unfold block_separator. rewrite Ht, Ho, Hl. reflexivity.
Qed.

Lemma set_value_trimmed_again (c : node) :
  let c' := set_value c (Str.trimStart (n_value (attrs c))) in
  set_value c' (Str.trimStart (n_value (attrs c'))) = c'.
Proof.
  destruct c as [t a cs]. simpl.
  rewrite with_value_twice, trimStart_idempotent. reflexivity.
Qed.

Section Settled.

Variable print : Printer.
Hypothesis print_settled : settled print.
Hypothesis print_reads : reads_parent_type print.
Hypothesis print_gentle : gentle print.
Hypothesis print_keeps_text : keeps_text print.

Lemma print_again (P P' c : node) :
  type P' = type P ->
  print (Some P') (fst (print (Some P) c)) = print (Some P) c.
Proof.
  intros Ht.
  rewrite (print_reads (Some P') (Some P)) by (simpl; rewrite Ht; reflexivity).
  apply print_settled.
Qed.

Lemma path_map_again (P P' : node) (cs : list node) :
  type P' = type P ->
  path_map print P' (fst (path_map print P cs)) = path_map print P cs.
Proof.
  intros Ht. induction cs as [|c cs IH]; [reflexivity|].
  cbn [path_map].
  pose proof (print_again P P' c Ht) as Hc.
  destruct (print (Some P) c) as [c' [l [d|e]]] eqn:Ep; cbn [fst] in Hc.
  - destruct (path_map print P cs) as [rest' [l' r]] eqn:Er.
    cbn [fst] in *. cbn [path_map]. rewrite Hc, IH. reflexivity.
  - cbn [fst path_map]. rewrite Hc. reflexivity.
Qed.

Lemma printBlock_each_again (P P' : node) (cs : list node) :
  type P' = type P ->
  forall docs prev,
    printBlock_each print P' docs prev
      (fst (printBlock_each print P docs prev cs))
    = printBlock_each print P docs prev cs.
Proof.
  intros Ht. induction cs as [|c cs IH]; intros docs prev; [reflexivity|].
  cbn [printBlock_each].
  pose proof (print_again P P' c Ht) as Hc.
  pose proof (print_gentle (Some P) c) as Hg.
  destruct (print (Some P) c) as [c' [l [d|e]]] eqn:Ep; cbn [fst] in Hc, Hg.
  - match goal with
    | |- context [printBlock_each print P ?D ?Q cs] =>
        specialize (IH D Q);
        destruct (printBlock_each print P D Q cs) as [rest' [l' r]] eqn:Er
    end.
    cbn [fst] in *. cbn [printBlock_each]. rewrite Hc.
    replace (match prev with
             | Some p => docs ++ [block_separator p c']
             | None => docs
             end)
      with (match prev with
            | Some p => docs ++ [block_separator p c]
            | None => docs
            end)
      by (destruct prev; [rewrite (block_separator_trimmed _ _ _ Hg)|];
          reflexivity).
    rewrite IH. reflexivity.
  - cbn [fst printBlock_each]. rewrite Hc. reflexivity.
Qed.

Lemma printBlock_again (n : node) :
  printBlock print (fst (printBlock print n)) = printBlock print n.
Proof.
  unfold printBlock.
  pose proof (printBlock_each_again n
                (Node (type n) (attrs n)
                      (fst (printBlock_each print n [] None (children n))))
                (children n) eq_refl [] None) as H.
  destruct (printBlock_each print n [] None (children n)) as [cs' m] eqn:E.
  cbn [fst type attrs children] in *. rewrite H. reflexivity.
Qed.

Lemma path_map_node_again (n : node) :
  let n' := Node (type n) (attrs n) (fst (path_map print n (children n))) in
  path_map print n' (children n') = path_map print n (children n).
Proof. intros n'. apply path_map_again. reflexivity. Qed.

Lemma trimFirstText_printed (P : node) (cs : list node) :
  trimFirstText (fst (path_map print P (trimFirstText cs)))
  = fst (path_map print P (trimFirstText cs)).
Proof.
  destruct cs as [|c0 rest]; [reflexivity|].
  cbn [trimFirstText].
  destruct (String.eqb_spec (type c0) "text") as [Ht|Ht].
  - set (c0t := set_value c0 (Str.trimStart (n_value (attrs c0)))).
    assert (Htt : type c0t = "text") by (unfold c0t; destruct c0; exact Ht).
    destruct (path_map_head print P c0t rest print_gentle) as (rest' & E & _).
    rewrite E, (print_keeps_text _ _ Htt).
    cbn [trimFirstText]. rewrite Htt. change ("text" =? "text") with true.
    cbv iota. unfold c0t. rewrite set_value_trimmed_again. reflexivity.
  - destruct (path_map_head print P c0 rest print_gentle) as (rest' & E & _).
    rewrite E. cbn [trimFirstText].
    destruct (trimmed_only_reads _ _ _ (print_gentle (Some P) c0)) as (Et & _).
    rewrite Et. apply String.eqb_neq in Ht. rewrite Ht. reflexivity.
Qed.

Section Step.

Variables encode escape uri title toLowerCase : string -> string.
Variable visit : node -> string.
Variable opts : RemarkOptions.

Let switch := genericPrint_node encode escape uri title toLowerCase visit opts.

Lemma genericPrint_node_again (parent : option node) (n : node) :
  switch print parent (fst (switch print parent n)) = switch print parent n.
Proof.
  unfold switch, genericPrint_node.
  destruct (kind_of (type n)) eqn:K;
    try (cbn [fst]; rewrite K; reflexivity).
  - (* root *)
    pose proof (printBlock_again n) as H.
    assert (Ht : type (fst (printBlock print n)) = type n)
      by (unfold printBlock; destruct (printBlock_each _ _ _ _ _); reflexivity).
    destruct (printBlock print n) as [n' m] eqn:E. cbn [fst] in *.
    rewrite Ht, K, H. reflexivity.
  - (* blockquote *)
    unfold printBlockWithLeftMarkers.
    pose proof (printBlock_again n) as H.
    assert (Ht : type (fst (printBlock print n)) = type n)
      by (unfold printBlock; destruct (printBlock_each _ _ _ _ _); reflexivity).
    destruct (printBlock print n) as [n' m] eqn:E. cbn [fst] in *.
    rewrite Ht, K. unfold printBlockWithLeftMarkers. rewrite H. reflexivity.
  - (* delete *)
    unfold printQuoted. pose proof (path_map_node_again n) as H.
    destruct (path_map print n (children n)) as [cs' m] eqn:E.
    cbn [fst type attrs children] in *. rewrite K. unfold printQuoted.
    cbn [type attrs children]. rewrite H. reflexivity.
  - (* footnoteDefinition *)
    pose proof (printBlock_again n) as H.
    assert (Ht : type (fst (printBlock print n)) = type n
                 /\ attrs (fst (printBlock print n)) = attrs n)
      by (unfold printBlock; destruct (printBlock_each _ _ _ _ _); split;
          reflexivity).
    destruct Ht as [Ht Ha].
    destruct (printBlock print n) as [n' m] eqn:E. cbn [fst] in *.
    rewrite Ht, K, H, Ha. reflexivity.
  - (* footnote *)
    pose proof (path_map_node_again n) as H.
    destruct (path_map print n (children n)) as [cs' m] eqn:E.
    cbn [fst type attrs children] in *. rewrite K, H. reflexivity.
  - (* paragraph *)
    set (cs1 := trimFirstText (children n)).
    set (n1 := Node (type n) (attrs n) cs1).
    pose proof (trimFirstText_printed n1 (children n)) as Htrim.
    fold cs1 in Htrim.
    pose proof (path_map_again n1
                  (Node (type n) (attrs n) (fst (path_map print n1 cs1)))
                  cs1 eq_refl) as H.
    destruct (path_map print n1 cs1) as [cs' m] eqn:E.
    cbn [fst type attrs children] in *. rewrite K, Htrim, H. reflexivity.
  - (* emphasis *)
    unfold printQuoted. pose proof (path_map_node_again n) as H.
    destruct (path_map print n (children n)) as [cs' m] eqn:E.
    cbn [fst type attrs children] in *. rewrite K. unfold printQuoted.
    cbn [type attrs children]. rewrite H. reflexivity.
  - (* strong *)
    unfold printQuoted. pose proof (path_map_node_again n) as H.
    destruct (path_map print n (children n)) as [cs' m] eqn:E.
    cbn [fst type attrs children] in *. rewrite K. unfold printQuoted.
    cbn [type attrs children]. rewrite H. reflexivity.
Qed.

End Step.

End Settled.

Section PrintedAgain.

Variables encode escape uri title toLowerCase : string -> string.
Variable visit : node -> string.
Variable opts : RemarkOptions.

Let switch := genericPrint_node encode escape uri title toLowerCase visit opts.
Let tied := printGenerically encode escape uri title toLowerCase visit opts.

Lemma genericPrint_node_reads_parent_type
    (print : Printer) (p p' : option node) (n : node) :
  parent_type p = parent_type p' -> switch print p n = switch print p' n.
Proof.
  intros H. unfold switch, genericPrint_node.
  destruct (kind_of (type n)); try reflexivity.
  unfold printCode.
  destruct p as [p|], p' as [p'|]; simpl in H; try discriminate;
    [injection H as H; rewrite H|]; reflexivity.
Qed.

Lemma printGenerically_reads_parent_type (fuel : nat) :
  reads_parent_type (tied fuel).
Proof.
  destruct fuel as [|fuel]; intros p p' c H; [reflexivity|].
  apply genericPrint_node_reads_parent_type, H.
Qed.

Lemma printGenerically_keeps_text (fuel : nat) : keeps_text (tied fuel).
Proof. intros p c Ht. apply tied_text_untouched, Ht. Qed.

(** X10.  Printing again the node that printing has left returns the
    same again: the same Doc or error and the same calls to fill, and
    the node is left as it was handed in.  The mutation of the paragraph
    case is done once and for all. *)
Theorem printing_again_returns_the_same
    (fuel : nat) (parent : option node) (n : node) :
  tied fuel parent (left_as (tied fuel parent n)) = tied fuel parent n.
Proof.
  unfold left_as. revert parent n.
  change (settled (tied fuel)).
  induction fuel as [|fuel IH]; intros p c; [reflexivity|].
  apply (genericPrint_node_again (tied fuel) IH
           (printGenerically_reads_parent_type fuel)
           (printGenerically_gentle encode escape uri title toLowerCase visit
              opts fuel)
           (printGenerically_keeps_text fuel)).
Qed.

End PrintedAgain.

(* ------------------------------------------------------------------ *)
(** ** The command line *)

Lemma starts_with_spec (pat s : string) :
  Cli.starts_with pat s = true <-> exists post, s = pat +++ post.
Proof.
  revert s. induction pat as [|a pat IH]; intros s.
  - simpl. split; [intros _; exists s; reflexivity | reflexivity].
  - destruct s as [|b s]; simpl.
    + split; [discriminate | intros (post & H); discriminate].
    + rewrite andb_true_iff, Ascii.eqb_eq, IH. split.
      * intros (-> & post & ->). exists post. reflexivity.
      * intros (post & [= -> ->]). split; [reflexivity | exists post; reflexivity].
Qed.

Lemma occurs_spec (pat s : string) :
  Cli.occurs pat s = true <-> exists pre post, s = pre +++ pat +++ post.
Proof.
  induction s as [|c s IH].
  - simpl. rewrite orb_false_r, starts_with_spec. split.
    + intros (post & H). exists EmptyString, post. exact H.
    + intros (pre & post & H). destruct pre; [exists post; exact H | discriminate].
  - cbn [Cli.occurs]. rewrite orb_true_iff, starts_with_spec, IH. split.
    + intros [(post & H)|(pre & post & H)].
      * exists EmptyString, post. exact H.
      * exists (String c pre), post. simpl. rewrite H. reflexivity.
    + intros (pre & post & H). destruct pre as [|x pre].
      * left. exists post. exact H.
      * right. simpl in H. injection H as _ H. exists pre, post. exact H.
Qed.

(** X11.  [getTrailingComma] returns one of the three values none, es5
    and all, or throws; each of the three is returned as it is.  It
    returns for no value and for the strings none, es5, all and the
    empty one, and throws for every other string; the empty string is
    the one input that is warned about. *)
Theorem getTrailingComma_returns_a_valid_value (value : option string) :
  let (warnings, r) := Cli.getTrailingComma value in
  match r with
  | Cli.Returns v =>
      In v ["none"; "es5"; "all"]
      /\ Cli.getTrailingComma (Some v) = ([], Cli.Returns v)
      /\ (value = None \/ exists s, value = Some s
                                   /\ In s ["none"; EmptyString; "es5"; "all"])
  | Cli.Throws m =>
      m = "Invalid option for --trailing-comma"
      /\ exists s, value = Some s
                   /\ ~ In s ["none"; EmptyString; "es5"; "all"]
  end
  /\ (warnings <> [] <-> value = Some EmptyString).
Proof.
  destruct value as [v|]; cbn [Cli.getTrailingComma].
  - destruct (String.eqb_spec v "none") as [->|H1].
    { split; [|split; [intros H; congruence | discriminate]].
      split; [simpl; tauto|]. split; [reflexivity|]. right. exists "none".
      simpl. tauto. }
    destruct (String.eqb_spec v EmptyString) as [->|H2].
    { split; [|split; [reflexivity | discriminate]].
      split; [simpl; tauto|]. split; [reflexivity|]. right. exists EmptyString.
      simpl. tauto. }
    destruct (String.eqb_spec v "es5") as [->|H3].
    { split; [|split; [intros H; congruence | discriminate]].
      split; [simpl; tauto|]. split; [reflexivity|]. right. exists "es5".
      simpl. tauto. }
    destruct (String.eqb_spec v "all") as [->|H4].
    { split; [|split; [intros H; congruence | discriminate]].
      split; [simpl; tauto|]. split; [reflexivity|]. right. exists "all".
      simpl. tauto. }
    split; [|split; [intros H; congruence | intros [= ->]; congruence]].
    split; [reflexivity|]. exists v. split; [reflexivity|].
    simpl. intros [H|[H|[H|[H|[]]]]]; congruence.
  - split; [|split; [intros H; congruence | discriminate]].
    split; [simpl; tauto|]. split; [reflexivity|]. left. reflexivity.
Qed.

Section DebugCheck.

Variables X Ast D : Type.
Variable prettier_format : string -> Cli.outcome X string.
Variable prettier_formatWithCursor : string -> Cli.outcome X Cli.Formatted.
Variable debug_parse : string -> Cli.outcome X Ast.
Variable debug_printToDoc : string -> Cli.outcome X D.
Variable debug_formatDoc : D -> Cli.outcome X string.
Variable cleanAST : Ast -> string.
Variable diff : string -> string -> string.
Variable String_ : Cli.Caught -> string.

Let format :=
  Cli.format X Ast D prettier_format prettier_formatWithCursor debug_parse
             debug_printToDoc debug_formatDoc cleanAST diff.

(** X12.  With the debug check on, and the Doc dump off, [format]
    returns exactly when formatting the formatted text gives the same
    text again and the cleaned ASTs of the input and of the formatted
    text are equal; what it returns is then the file path, or the stdin
    mark, and never the formatted text. *)
Theorem debug_check_passes_iff
    (argv : Cli.Flags) (input : string) (filepath : option string)
    (r : Cli.Formatted) :
  Cli.debugPrintDoc argv = false ->
  Cli.debugCheck argv = true ->
  format argv input filepath = Cli.Returns r
  <-> (exists pp a1 a2,
          prettier_format input = Cli.Returns pp
          /\ prettier_format pp = Cli.Returns pp
          /\ debug_parse input = Cli.Returns a1
          /\ debug_parse pp = Cli.Returns a2
          /\ cleanAST a1 = cleanAST a2)
      /\ r = Cli.mkFormatted
               (match filepath with
                | Some (String c f) => String c f
                | _ => "(stdin)" +++ String (ascii_of_nat 10) EmptyString
                end) None.
Proof.
  intros Hdoc Hcheck. unfold format, Cli.format. rewrite Hdoc, Hcheck.
  assert (Hpath : (if Str.truthy (or_empty filepath) then or_empty filepath
                   else "(stdin)" +++ String (ascii_of_nat 10) EmptyString)
                  = match filepath with
                    | Some (String c f) => String c f
                    | _ => "(stdin)" +++ String (ascii_of_nat 10) EmptyString
                    end).
  { destruct filepath as [[|c f]|]; reflexivity. }
  rewrite Hpath. clear Hpath.
  destruct (prettier_format input) as [pp|x] eqn:E1.
  2:{ split; [discriminate|]. intros [(pp & a1 & a2 & H & _) _]. discriminate. }
  destruct (prettier_format pp) as [pppp|x] eqn:E2.
  2:{ split; [discriminate|].
      intros [(pp' & a1 & a2 & [= <-] & H & _) _]. congruence. }
  destruct (String.eqb_spec pp pppp) as [<-|Hne]; cbn [negb].
  2:{ split; [discriminate|].
      intros [(pp' & a1 & a2 & [= <-] & H & _) _]. congruence. }
  destruct (debug_parse input) as [a1|x] eqn:E3.
  2:{ split; [discriminate|].
      intros [(pp' & a1 & a2 & _ & _ & H & _) _]. discriminate. }
  destruct (debug_parse pp) as [a2|x] eqn:E4.
  2:{ split; [discriminate|].
      intros [(pp' & a1' & a2 & [= <-] & _ & _ & H & _) _]. congruence. }
  destruct (String.eqb_spec (cleanAST a1) (cleanAST a2)) as [Heq|Hne];
    cbn [negb].
  - split.
    + intros [= <-]. split; [|reflexivity].
      exists pp, a1, a2. auto.
    + intros [_ ->]. reflexivity.
  - split; [discriminate|].
    intros [(pp' & a1' & a2' & [= <-] & _ & [= <-] & H & Hc) _].
    rewrite E4 in H. injection H as <-. contradiction.
Qed.

(** X13.  A string that [format] throws of its own comes from the debug
    check and starts with one of its two headings; [handleError] reports
    it as an unexpected error: the file name and the string go to
    [console.error], the exit code is set to 2 and the process is not
    exited, whatever the text of the diff in the string. *)
Theorem failed_debug_check_sets_exit_code_2
    (argv : Cli.Flags) (input filename s : string) (filepath : option string)
    (p : Cli.Process) :
  format argv input filepath = Cli.Throws (Cli.ThrownString s) ->
  (Cli.debugPrintDoc argv = false /\ Cli.debugCheck argv = true)
  /\ (Cli.starts_with "prettier(input) !== prettier(prettier(input))" s = true
      \/ Cli.starts_with "ast(input) !== ast(prettier(input))" s = true)
  /\ Cli.handleError String_ filename (Cli.CaughtString s) p
     = (Cli.mkProcess
          (Cli.stderr p
           ++ [[Cli.ShownString (filename +++ ":");
                Cli.ShownValue (Cli.CaughtString s)]])
          (Some 2) (Cli.exited p),
        Cli.Returns tt).
Proof.
  intros H. split; [|split].
  - unfold format, Cli.format in H.
    destruct (Cli.debugPrintDoc argv).
    { destruct (debug_printToDoc input) as [d|x]; [|discriminate].
      destruct (debug_formatDoc d); discriminate. }
    destruct (Cli.debugCheck argv); [split; reflexivity|].
    destruct (prettier_formatWithCursor input); discriminate.
  - unfold format, Cli.format in H.
    destruct (Cli.debugPrintDoc argv).
    { destruct (debug_printToDoc input) as [d|x]; [|discriminate].
      destruct (debug_formatDoc d); discriminate. }
    destruct (Cli.debugCheck argv).
    2:{ destruct (prettier_formatWithCursor input); discriminate. }
    destruct (prettier_format input) as [pp|x]; [|discriminate].
    destruct (prettier_format pp) as [pppp|x]; [|discriminate].
    destruct (negb (pp =? pppp)).
    { injection H as <-. left. apply starts_with_spec. eexists. reflexivity. }
    destruct (debug_parse input) as [a1|x]; [|discriminate].
    destruct (debug_parse pp) as [a2|x]; [|discriminate].
    destruct (negb (cleanAST a1 =? cleanAST a2)); [|discriminate].
    injection H as <-. right. apply starts_with_spec. eexists. reflexivity.
  - unfold Cli.handleError. cbn [Cli.has_loc Cli.tested_message].
    destruct (Str.truthy s); reflexivity.
Qed.

(** X14.  For a caught [null] or [undefined], [handleError] throws the
    TypeError of reading [stack] and leaves the process as it was: no
    call to [console.error], no exit code, no exit.  For every other
    value it returns after one call to [console.error], having either
    set the exit code to 2, or exited with status 1 and left the exit
    code alone.  It exits exactly for a value without [loc] whose
    message holds the words Validation Error: a parse error, which has a
    [loc], never exits the process, whatever its message. *)
Theorem handleError_exits_on_validation_errors_only
    (filename : string) (e : Cli.Caught) (p : Cli.Process) :
  let validation :=
    exists pre post,
      Cli.tested_message e = pre +++ "Validation Error" +++ post in
  (e = Cli.CaughtNull \/ e = Cli.CaughtUndefined ->
   Cli.handleError String_ filename e p
   = (p, Cli.Throws (Cli.TypeError "stack")))
  /\ (e <> Cli.CaughtNull -> e <> Cli.CaughtUndefined ->
      exists p',
        Cli.handleError String_ filename e p = (p', Cli.Returns tt)
        /\ List.length (Cli.stderr p') = S (List.length (Cli.stderr p))
        /\ (Cli.has_loc e = true \/ ~ validation ->
            Cli.exitCode p' = Some 2 /\ Cli.exited p' = Cli.exited p)
        /\ (Cli.has_loc e = false /\ validation ->
            Cli.exited p' = Some 1 /\ Cli.exitCode p' = Cli.exitCode p)
        /\ (Cli.has_loc e = true ->
            Cli.stderr p'
            = Cli.stderr p
              ++ [[Cli.ShownString (filename +++ ": " +++ String_ e)]])).
Proof.
  intros validation. split.
  - intros [->| ->]; reflexivity.
  - intros Hnull Hundef. unfold Cli.handleError.
    pose proof (occurs_spec "Validation Error" (Cli.tested_message e)) as Hocc.
    fold validation in Hocc.
    destruct (Cli.has_loc e) eqn:El;
      [|destruct (Cli.occurs "Validation Error" (Cli.tested_message e)) eqn:Eo;
        [|destruct (Cli.stack_or_self e) as [shown|err] eqn:Es]].
    + eexists. split; [reflexivity|]. cbn [Cli.stderr Cli.exitCode Cli.exited].
      split; [rewrite length_app; simpl; lia|].
      split; [auto|]. split; [intros [[=] _] | reflexivity].
    + eexists. split; [reflexivity|]. cbn [Cli.stderr Cli.exitCode Cli.exited].
      split; [rewrite length_app; simpl; lia|].
      split; [|split; [auto | discriminate]].
      intros [[=]|Hv]. exfalso. apply Hv, Hocc. reflexivity.
    + eexists. split; [reflexivity|]. cbn [Cli.stderr Cli.exitCode Cli.exited].
      split; [rewrite length_app; simpl; lia|].
      split; [auto|]. split; [|discriminate].
      intros [_ Hv]. apply Hocc in Hv. discriminate.
    + destruct e as [| |s|loc message [st|]]; try congruence; discriminate Es.
Qed.

End DebugCheck.

(* ------------------------------------------------------------------ *)
(** ** The further properties at concrete inputs *)

Lemma spaced_a_b_is_not_empty : " a  b " <> EmptyString.
Proof. intros H. discriminate H. Defined.

Lemma words_of_spaced_a_b :
  " a  b " <> EmptyString
  /\ textToWords same same " a  b " false false
     = PArr [Text EmptyString; line; Text "a"; line; Text "b"; line;
             Text EmptyString]
  /\ exists w0 rest,
       textToWords same same " a  b " false false
       = PArr (intersperse line (map Text (w0 :: map snd rest)))
       /\ " a  b " = weave w0 rest
       /\ canWrap w0 = false
       /\ Forall gap_then_word rest
       /\ inner_nonempty rest
       /\ (starts_with_space " a  b " = true -> w0 = EmptyString)
       /\ (ends_with_space " a  b " = true ->
           last (w0 :: map snd rest) EmptyString = EmptyString)
       /\ join_words (w0 :: map snd rest) = remove_spaces " a  b ".
Proof.
  split; [exact spaced_a_b_is_not_empty|]. split; [reflexivity|].
  exact (textToWords_cuts_at_whitespace_runs
           same same " a  b " spaced_a_b_is_not_empty).
Defined.

Lemma strong_a_between_stars :
  (type strong_a = "delete" \/ type strong_a = "emphasis"
   \/ type strong_a = "strong")
  /\ snd (path_map (transform 2) strong_a (children strong_a))
     = ([], Ok [concat (PArr [Text "a"])])
  /\ snd (genericPrint_node same same same same same no_visitor remarkOptions
            (transform 2) None strong_a)
     = ([], Ok (concat (PArr [Text "**"; concat (PArr [Text "a"]); Text "**"]))).
Proof.
  split; [right; right; reflexivity|]. split; [reflexivity|].
  exact (proj1 (quoted_children_stand_between_equal_markers
                  same same same same same no_visitor remarkOptions
                  (transform 2) None strong_a []
                  (or_intror (or_intror eq_refl)))
           [concat (PArr [Text "a"])] eq_refl).
Defined.

Lemma definition_with_title_prints :
  type (definition_node "foo" "u" (Some "T")) = "definition"
  /\ exists label,
       textToWords same same ("[" +++ same "foo" +++ "]:") false false
       = PArr label
       /\ alternating is_word (eq line) label
       /\ genericPrint_node same same same same same no_visitor remarkOptions
            print_type_name None (definition_node "foo" "u" (Some "T"))
          = (definition_node "foo" "u" (Some "T"),
             ([PArr (label ++ [line; Text "u"]); PArr [Text "T"]],
              Ok (group (indent (concat
                    (PArr [Fill (PArr (label ++ [line; Text "u"])); line;
                           Fill (PArr [Text "T"])])))))).
Proof.
  split; [reflexivity|].
  exact (definition_prints_label_url_and_title
           same same same same same no_visitor remarkOptions print_type_name
           None (definition_node "foo" "u" (Some "T")) eq_refl (fun H => H)).
Defined.

Lemma none_is_not_listItem : not_listItem None.
Proof. intros H. discriminate H. Defined.

Lemma footnote_a_is_no_indent_error :
  not_listItem None
  /\ result_of (printGenerically same same same same same no_visitor
                  pedanticOptions 3 None footnote_a)
     <> Throw CannotIndentCode.
Proof.
  split; [exact none_is_not_listItem|].
  exact (indented_code_error_is_unreachable
           same same same same same no_visitor pedanticOptions
           3 None footnote_a none_is_not_listItem).
Defined.

Lemma first_paragraph_succeeds :
  Forall (fun x => succeeds (transform 3 (Some root_with_list) x))
         [parent_node "paragraph" [text_node "  a"]].
Proof. repeat constructor. eexists. reflexivity. Defined.

Lemma root_with_list_stops_at_the_list :
  Forall (fun x => succeeds (transform 3 (Some root_with_list) x))
         [parent_node "paragraph" [text_node "  a"]]
  /\ result_of (transform 3 (Some root_with_list) (list_node true))
     = Throw (UnknownRemarkType "list")
  /\ printBlock (transform 3) root_with_list
     = (parent_node "root"
          [parent_node "paragraph" [text_node "a"]; list_node true;
           parent_node "paragraph" [text_node "  b"]],
        ([PArr [Text "a"]], Throw (UnknownRemarkType "list"))).
Proof.
  split; [exact first_paragraph_succeeds|]. split; [reflexivity|].
  exact (proj2 (printing_children_stops_at_first_failure
                  (transform 3) root_with_list
                  [parent_node "paragraph" [text_node "  a"]]
                  [parent_node "paragraph" [text_node "  b"]]
                  (list_node true) (UnknownRemarkType "list")
                  first_paragraph_succeeds eq_refl)
           eq_refl).
Defined.

Lemma fixed_point_passes_the_debug_check :
  Cli.debugPrintDoc checking = false
  /\ Cli.debugCheck checking = true
  /\ Cli.format unit string unit formats_to_x no_cursor parses_to_text no_doc
       no_text (fun _ => EmptyString) no_diff checking "input" (Some "f.md")
     = Cli.Returns (Cli.mkFormatted "f.md" None).
Proof.
  split; [reflexivity|]. split; [reflexivity|].
  apply (proj2 (debug_check_passes_iff
                  unit string unit formats_to_x no_cursor parses_to_text no_doc
                  no_text (fun _ => EmptyString) no_diff checking "input"
                  (Some "f.md") (Cli.mkFormatted "f.md" None)
                  eq_refl eq_refl)).
  split; [|reflexivity].
  exists "x", "input", "x". repeat split; reflexivity.
Defined.

Lemma growing_output_fails_the_debug_check :
  Cli.format unit string unit appends_bang no_cursor parses_to_text no_doc
    no_text (fun _ => EmptyString) no_diff checking "a" None
  = Cli.Throws
      (Cli.ThrownString
         ("prettier(input) !== prettier(prettier(input))"
          +++ String (ascii_of_nat 10) EmptyString))
  /\ Cli.handleError (fun _ => EmptyString) "f.md"
       (Cli.CaughtString
          ("prettier(input) !== prettier(prettier(input))"
           +++ String (ascii_of_nat 10) EmptyString))
       fresh_process
     = (Cli.mkProcess
          [[Cli.ShownString "f.md:";
            Cli.ShownValue
              (Cli.CaughtString
                 ("prettier(input) !== prettier(prettier(input))"
                  +++ String (ascii_of_nat 10) EmptyString))]]
          (Some 2) None,
        Cli.Returns tt).
Proof.
  split; [reflexivity|].
  exact (proj2 (proj2 (failed_debug_check_sets_exit_code_2
                         unit string unit appends_bang no_cursor parses_to_text
                         no_doc no_text (fun _ => EmptyString) no_diff
                         (fun _ => EmptyString) checking "a" "f.md" _ None
                         fresh_process eq_refl))).
Defined.

Lemma caught_null_is_not_reported :
  Cli.handleError (fun _ => EmptyString) "f.md" Cli.CaughtNull fresh_process
  = (fresh_process, Cli.Throws (Cli.TypeError "stack")).
Proof.
  exact (proj1 (handleError_exits_on_validation_errors_only
                  (fun _ => EmptyString) "f.md" Cli.CaughtNull fresh_process)
           (or_introl eq_refl)).
Defined.
